(** * Private set-membership test: the protocol of [private_set_membership.py]

    A shallow embedding of the Client, the Server and [run_protocol], and
    the properties of the root-polynomial encoding, of the homomorphic
    evaluation, of the blinding and of the error paths.

    The Paillier library ([phe]), Python's [random] module and the iteration
    order of Python's [set] are not part of the repository: they appear as
    interfaces (type classes of operations) with their contracts stated
    separately as classes of laws. *)

From stdpp Require Import base tactics option list strings pretty.
From Stdlib Require Import ZArith Lia.

Local Open Scope Z_scope.

(** ** Python exceptions and fallible computations *)

Inductive exn : Type :=
  | ValueError (msg : string)
  | IndexError.

Inductive result (A : Type) : Type :=
  | Ok (a : A)
  | Raise (e : exn).
Arguments Ok {A} a.
Arguments Raise {A} e.

#[global] Instance result_ret : MRet result := λ A a, Ok a.
#[global] Instance result_bind : MBind result := λ A B f m,
  match m with
  | Ok a => f a
  | Raise e => Raise e
  end.

(** [l[i]] for a non-negative index: [IndexError] out of range. *)
Definition getitem {A} (l : list A) (i : nat) : result A :=
  match l !! i with
  | Some x => Ok x
  | None => Raise IndexError
  end.

(** [l[i] = x] for a non-negative index: [IndexError] out of range. *)
Definition setitem {A} (l : list A) (i : nat) (x : A) : result (list A) :=
  if decide (i < length l)%nat then Ok (<[i:=x]> l) else Raise IndexError.

(** [l[-1]]: the last element, [IndexError] on the empty list. *)
Definition getitem_last {A} (l : list A) : result A :=
  match last l with
  | Some x => Ok x
  | None => Raise IndexError
  end.

(** [range(lo, hi)] over naturals. *)
Definition range (lo hi : nat) : list nat := seq lo (hi - lo).

(** A [for] loop whose body may raise: the exception leaves the loop. *)
Fixpoint for_each {A St} (xs : list A) (body : A → St → result St) (st : St)
  : result St :=
  match xs with
  | [] => Ok st
  | x :: xs' => st' ← body x st; for_each xs' body st'
  end.

(** ** The polynomial encoder *)

(** The body of the loop of [_compute_polynomial_coefficients]: multiply the
    polynomial [coeffs] (leading coefficient first) by [(x - s_i)]. *)
Definition multiply_step (coeffs : list Z) (s_i : Z) : result (list Z) :=
  let new_coeffs := replicate (length coeffs + 1) 0 in
  (* multiply by x: shift coefficients *)
  new_coeffs ← for_each (range 0 (length coeffs))
    (λ i new_coeffs, c ← getitem coeffs i; setitem new_coeffs i c)
    new_coeffs;
  (* multiply by -s_i: scale and add *)
  for_each (range 0 (length coeffs))
    (λ i new_coeffs,
       old ← getitem new_coeffs (i + 1);
       c ← getitem coeffs i;
       setitem new_coeffs (i + 1) (old + c * (- s_i)))
    new_coeffs.

(** [Server._compute_polynomial_coefficients], as a function of the two
    attributes of [self] it reads. *)
Definition _compute_polynomial_coefficients (dataset : list Z) (n : nat)
  : result (list Z) :=
  if decide (n = 0%nat) then Ok [1]
  else
    s1 ← getitem dataset 0;
    for_each (drop 1 dataset) (λ s_i coeffs, multiply_step coeffs s_i) [1; - s1].

(** Plain integer evaluation of a coefficient list [a_n; ...; a_1; a_0] at
    [x]: the sum of [a_k * x^k]. *)
Fixpoint poly_eval (coeffs : list Z) (x : Z) : Z :=
  match coeffs with
  | [] => 0
  | a :: rest => a * x ^ Z.of_nat (length rest) + poly_eval rest x
  end.

(** The same sum read from the constant term: for [low = a_0; a_1; ...] the
    sum of [a_j * x^(i + j)]. *)
Fixpoint ascending_eval (low : list Z) (x : Z) (i : nat) : Z :=
  match low with
  | [] => 0
  | a :: rest => a * x ^ Z.of_nat i + ascending_eval rest x (S i)
  end.

(** The product [(x - s_1) ... (x - s_n)]. *)
Definition root_product (roots : list Z) (x : Z) : Z :=
  foldr (λ s acc, (x - s) * acc) 1 roots.

(** Closed form of one multiplication by [(x - s)]: every coefficient
    receives [-s] times its left neighbour, [prev] being the neighbour of
    the first one. *)
Fixpoint shift_scale (prev : Z) (p : list Z) (s : Z) : list Z :=
  match p with
  | [] => [prev * (- s)]
  | a :: p' => (a + prev * (- s)) :: shift_scale a p' s
  end.

(** The monic polynomial with the given roots. *)
Definition monic_of_roots (roots : list Z) : list Z :=
  foldl (shift_scale 0) [1] roots.

(** ** Computations that raise and use randomness

    [Entropy] is the state of the randomness sources; an exception leaves
    it as it was when raised. *)

Definition M (Entropy A : Type) : Type := Entropy → result A * Entropy.

#[global] Instance m_ret {Entropy} : MRet (M Entropy) := λ A a g, (Ok a, g).

#[global] Instance m_bind {Entropy} : MBind (M Entropy) := λ A B f m g,
  match m g with
  | (Ok a, g') => f a g'
  | (Raise e, g') => (Raise e, g')
  end.

Definition raise {Entropy A} (e : exn) : M Entropy A := λ g, (Raise e, g).

(** A computation that does not touch the randomness. *)
Definition lift {Entropy A} (r : result A) : M Entropy A := λ g, (r, g).

(** A random draw that cannot raise. *)
Definition draw {Entropy A} (f : Entropy → A * Entropy) : M Entropy A :=
  λ g, let '(a, g') := f g in (Ok a, g').

(** A [for] loop in [M]. *)
Fixpoint for_each_m {Entropy A St} (xs : list A)
    (body : A → St → M Entropy St) (st : St) : M Entropy St :=
  match xs with
  | [] => mret st
  | x :: xs' => st' ← body x st; for_each_m xs' body st'
  end.

(** ** External interfaces

    The operations of the [phe] library used by the protocol.  Key
    generation and encryption are randomised: they read and advance the
    state [Entropy] of the randomness sources. *)
Class Paillier (Entropy : Type) : Type := {
  PublicKey : Type;
  PrivateKey : Type;
  EncryptedNumber : Type;
  (** [paillier.generate_paillier_keypair(n_length=key_length)] *)
  generate_paillier_keypair :
    Z → Entropy → (PublicKey * PrivateKey) * Entropy;
  (** [public_key.encrypt(m)] *)
  encrypt : PublicKey → Z → Entropy → EncryptedNumber * Entropy;
  (** [private_key.decrypt(ct)] *)
  decrypt : PrivateKey → EncryptedNumber → Z;
  (** [ct1 + ct2] on encrypted numbers *)
  enc_add : EncryptedNumber → EncryptedNumber → EncryptedNumber;
  (** [ct * k] for a plain integer [k] *)
  enc_mul : EncryptedNumber → Z → EncryptedNumber;
}.

(** What the protocol uses of the Python runtime: [random.randint] and the
    order in which [list(set(l))] enumerates the distinct elements of [l]. *)
Class PyRuntime (Entropy : Type) : Type := {
  randint : Z → Z → M Entropy Z;
  list_of_set : list Z → list Z;
}.

(** The contract of the homomorphic scheme: decryption under the private
    key of a generated pair inverts encryption under its public key, and
    turns [enc_add] into [+] and [enc_mul] into [*].  The two homomorphic
    laws are stated for every ciphertext, as the protocol applies the
    operations to results of earlier operations. *)
Class PaillierContract {Entropy} (P : Paillier Entropy) : Prop := {
  decrypt_encrypt bits g pk sk g' m r :
    generate_paillier_keypair bits g = ((pk, sk), g') →
    decrypt sk (encrypt pk m r).1 = m;
  decrypt_add sk c1 c2 :
    decrypt sk (enc_add c1 c2) = decrypt sk c1 + decrypt sk c2;
  decrypt_mul sk c k :
    decrypt sk (enc_mul c k) = decrypt sk c * k;
}.

(** [pk] and [sk] are the two halves of a generated key pair. *)
Definition keypair {Entropy} `{!Paillier Entropy}
    (pk : PublicKey) (sk : PrivateKey) : Prop :=
  ∃ bits g g', generate_paillier_keypair bits g = ((pk, sk), g').

(** The contract of the runtime: [randint a b] returns an integer of
    [[a, b]] when the range is not empty; [list(set(l))] lists the elements
    of [l], each once, in an order the contract does not fix. *)
Class PyRuntimeContract {Entropy} (R : PyRuntime Entropy) : Prop := {
  randint_range a b g :
    a ≤ b → ∃ r, (randint a b g).1 = Ok r ∧ a ≤ r ≤ b;
  NoDup_list_of_set l : NoDup (list_of_set l);
  elem_of_list_of_set l x : x ∈ list_of_set l ↔ x ∈ l;
}.

(** ** The Client *)

Module Client.
Section client.
Context {Entropy : Type} `{!Paillier Entropy}.

Record t : Type := {
  public_key : option PublicKey;
  private_key : option PrivateKey;
}.

Definition __init__ : t := {| public_key := None; private_key := None |}.

Definition generate_keys (self : t) (key_length : Z)
  : M Entropy (t * PublicKey) :=
  '(pk, sk) ← draw (generate_paillier_keypair key_length);
  mret ({| public_key := Some pk; private_key := Some sk |}, pk).

Definition encrypt_query (self : t) (c : Z) (n : Z)
  : M Entropy (list EncryptedNumber) :=
  match public_key self with
  | None =>
      raise (ValueError "Keys must be generated first. Call generate_keys()")
  | Some pk =>
      '(encrypted_powers, current_power) ←
        for_each_m (range 1 (Z.to_nat (n + 1)))
          (λ k '(encrypted_powers, current_power),
             let current_power := current_power * c in (* c^k *)
             e ← draw (encrypt pk current_power);
             mret (encrypted_powers ++ [e], current_power))
          ([], 1);
      mret encrypted_powers
  end.

Definition decrypt_result (self : t) (encrypted_result : EncryptedNumber)
  : result Z :=
  match private_key self with
  | None => Raise (ValueError "Private key not available")
  | Some sk => Ok (decrypt sk encrypted_result)
  end.

Definition check_membership (self : t) (decrypted_result : Z) : bool :=
  bool_decide (decrypted_result = 0).

(** The Client after [generate_keys] was called once for each key length
    of [lens], in order, on a fresh Client. *)
Definition after_generate_keys (lens : list Z) (g : Entropy) : t * Entropy :=
  foldl (λ '(self, g) key_length,
           match generate_keys self key_length g with
           | (Ok (self', _), g') => (self', g')
           | (Raise _, g') => (self, g')
           end)
        (__init__, g) lens.
End client.
End Client.

(** ** The Server *)

Module Server.
Section server.
Context {Entropy : Type} `{!Paillier Entropy, !PyRuntime Entropy}.

Record t : Type := {
  dataset : list Z;
  n : nat;
  coefficients : list Z;
}.

Definition __init__ (dataset : list Z) : result t :=
  let dataset := list_of_set dataset in
  let n := length dataset in
  coefficients ← _compute_polynomial_coefficients dataset n;
  Ok {| dataset := dataset; n := n; coefficients := coefficients |}.

Definition evaluate_polynomial_homomorphic (self : t)
    (public_key : PublicKey) (encrypted_powers : list EncryptedNumber)
  : M Entropy EncryptedNumber :=
  if decide (length encrypted_powers ≠ n self) then
    raise (ValueError ("Expected " +:+ pretty (n self) +:+
                       " encrypted powers, got " +:+
                       pretty (length encrypted_powers)))
  else
    (* the constant term a_0 *)
    a_0 ← lift (getitem_last (coefficients self));
    result ← draw (encrypt public_key a_0);
    (* each term a_k * c^k for k from 1 to n *)
    lift (for_each (range 1 (n self + 1))
      (λ k result,
         let coeff_index := (n self - k)%nat in
         a_k ← getitem (coefficients self) coeff_index;
         if decide (a_k ≠ 0) then
           power ← getitem encrypted_powers (k - 1);
           let encrypted_term := enc_mul power a_k in
           Ok (enc_add result encrypted_term)
         else Ok result)
      result).

Definition blind_and_return (self : t) (encrypted_result : EncryptedNumber)
    (max_blinding_factor : Z) : M Entropy EncryptedNumber :=
  r ← randint 1 max_blinding_factor;
  let blinded_result := enc_mul encrypted_result r in
  mret blinded_result.

(** The default of [max_blinding_factor]. *)
Definition default_max_blinding_factor : Z := 1000.

(** The public calls on a constructed Server.  Neither method assigns an
    attribute of [self]: a call leaves the Server as it was. *)
Inductive call : Type :=
  | Evaluate (public_key : PublicKey) (encrypted_powers : list EncryptedNumber)
  | Blind (encrypted_result : EncryptedNumber) (max_blinding_factor : Z).

Definition step (self : t) (c : call) : M Entropy (t * EncryptedNumber) :=
  match c with
  | Evaluate public_key encrypted_powers =>
      r ← evaluate_polynomial_homomorphic self public_key encrypted_powers;
      mret (self, r)
  | Blind encrypted_result max_blinding_factor =>
      r ← blind_and_return self encrypted_result max_blinding_factor;
      mret (self, r)
  end.

(** The Server states reachable from the construction on [ds] by public
    calls that return; a call that raises leaves the Server as well. *)
Inductive reachable (ds : list Z) : t → Prop :=
  | reachable_init self :
      __init__ ds = Ok self → reachable ds self
  | reachable_step self c g self' r g' :
      reachable ds self →
      step self c g = (Ok (self', r), g') →
      reachable ds self'.

(** The homomorphic sum as the specification writes it:
    [Enc(a_0) ⊕ Σ_{k=1..n} (encryptedPowers[k-1] ⊗ a_k)], no term skipped.
    [low_first] is [a_1; ...; a_n]. *)
Definition homomorphic_sum (enc_a0 : EncryptedNumber) (low_first : list Z)
    (encrypted_powers : list EncryptedNumber) : EncryptedNumber :=
  foldl enc_add enc_a0 (zip_with enc_mul encrypted_powers low_first).
End server.
End Server.

(** ** The orchestrator *)

Record protocol_info : Type := {
  query : Z;
  dataset_size : nat;
  polynomial_degree : nat;
  info_coefficients : list Z;
  decrypted_result : Z;
  is_member : bool;
  actual_membership : bool;
}.

(** The default of [key_length]. *)
Definition default_key_length : Z := 1024.

Section protocol.
Context {Entropy : Type} `{!Paillier Entropy, !PyRuntime Entropy}.

Definition run_protocol (client_query : Z) (server_dataset : list Z)
    (key_length : Z) : M Entropy (bool * protocol_info) :=
  (* initialize parties *)
  let client := Client.__init__ in
  server ← lift (Server.__init__ server_dataset);
  (* step 1: Client generates keys *)
  '(client, public_key) ← Client.generate_keys client key_length;
  (* step 2: Client encrypts query and powers *)
  encrypted_powers ←
    Client.encrypt_query client client_query (Z.of_nat (Server.n server));
  (* step 3: Server evaluates polynomial homomorphically *)
  encrypted_polynomial_value ←
    Server.evaluate_polynomial_homomorphic server public_key encrypted_powers;
  (* step 4: Server blinds the result *)
  blinded_result ←
    Server.blind_and_return server encrypted_polynomial_value
      Server.default_max_blinding_factor;
  (* step 5: Client decrypts and checks membership *)
  decrypted_result ← lift (Client.decrypt_result client blinded_result);
  let is_member := Client.check_membership client decrypted_result in
  let protocol_info := {|
    query := client_query;
    dataset_size := length server_dataset;
    polynomial_degree := Server.n server;
    info_coefficients := Server.coefficients server;
    decrypted_result := decrypted_result;
    is_member := is_member;
    actual_membership := bool_decide (client_query ∈ server_dataset);
  |} in
  mret (is_member, protocol_info).
End protocol.

(** The verdict and the decrypted value of a finished run. *)
Definition outcome {Entropy} (out : result (bool * protocol_info) * Entropy)
  : option (bool * Z) :=
  match out.1 with
  | Ok (verdict, info) => Some (verdict, decrypted_result info)
  | Raise _ => None
  end.

(** ** A reference instance of the interfaces

    A scheme that keeps the plaintext next to an obfuscator, a linear
    congruential generator for the randomness, and first-occurrence order for
    sets.  It satisfies both contracts and lets the protocol run. *)

Module Reference.
Definition next (g : Z) : Z := (1103515245 * g + 12345) mod 2147483648.

#[export] Instance paillier : Paillier Z := {|
  PublicKey := Z;
  PrivateKey := Z;
  EncryptedNumber := Z * Z;
  generate_paillier_keypair := λ bits g, ((g, g), next g);
  encrypt := λ pk m g, ((m, g), next g);
  decrypt := λ sk ct, ct.1;
  enc_add := λ c1 c2, (c1.1 + c2.1, next (c1.2 + c2.2));
  enc_mul := λ c k, (c.1 * k, next (c.2 + k));
|}.

#[export] Instance runtime : PyRuntime Z := {|
  randint := λ a b g,
    if decide (a ≤ b) then (Ok (a + g mod (b - a + 1)), next g)
    else (Raise (ValueError "empty range for randrange()"), g);
  list_of_set := remove_dups;
|}.

(** The Server constructed on [[1; 3; 5]]. *)
Definition server_135 : Server.t :=
  {| Server.dataset := [1; 3; 5];
     Server.n := 3;
     Server.coefficients := [1; -9; 23; -15] |}.

(** A Client holding the key pair [(7, 7)]. *)
Definition client_7 : @Client.t Z paillier :=
  {| Client.public_key := Some (7 : @PublicKey Z paillier);
     Client.private_key := Some (7 : @PrivateKey Z paillier) |}.
End Reference.

(** ** Printing

    Standard output is the list of the texts printed, one entry for each
    call of [print], in order (the newline that [print] adds after each is
    left implicit).  Text is held as UTF-8 bytes.  The programs that print
    run in [M] over the randomness and the output together. *)

Definition print {Entropy} (text : string)
  : M (Entropy * list string) unit :=
  λ '(g, out), (Ok (), (g, out ++ [text])).

(** A computation that prints nothing. *)
Definition silently {Entropy A} (m : M Entropy A)
  : M (Entropy * list string) A :=
  λ '(g, out), let '(r, g') := m g in (r, (g', out)).

(** The newline character, for the ["\n"] inside a printed text. *)
Definition nl : string := String (Ascii.ascii_of_nat 10) EmptyString.

(** [s * n] on strings. *)
Fixpoint str_repeat (s : string) (n : nat) : string :=
  match n with
  | O => EmptyString
  | S n' => s +:+ str_repeat s n'
  end.

(** How an f-string shows a [bool] and a list of integers. *)
Definition str_bool (b : bool) : string := if b then "True" else "False".

Definition str_list (l : list Z) : string :=
  "[" +:+ String.concat ", " (pretty <$> l) +:+ "]".

(** ['Member' if b else 'Not a member'] *)
Definition member_text (b : bool) : string :=
  if b then "Member" else "Not a member".

(** [sum] on a list of booleans. *)
Definition sum_bool (l : list bool) : Z :=
  foldl (λ acc (b : bool), acc + Z.b2z b) 0 l.

(** ** The demo script [demo.py] *)

Module Demo.
Section demo.
Context {Entropy : Type} `{!Paillier Entropy, !PyRuntime Entropy}.

Definition print_test_result (test_name : string) (query : Z)
    (dataset : list Z) (expected : bool) : M (Entropy * list string) bool :=
  print (nl +:+ str_repeat "=" 60);;
  print ("Test: " +:+ test_name);;
  print (str_repeat "=" 60);;
  print ("Server dataset: " +:+ str_list dataset);;
  print ("Dataset size: " +:+ pretty (length dataset));;
  print ("Client query: " +:+ pretty query);;
  '(result, info) ← silently (run_protocol query dataset default_key_length);
  print (nl +:+ "Protocol execution:");;
  print ("  - Polynomial degree: " +:+ pretty (polynomial_degree info));;
  print ("  - Decrypted result: " +:+ pretty (decrypted_result info));;
  print ("  - Protocol says: " +:+ member_text result);;
  print ("  - Actually is member: " +:+ str_bool (actual_membership info));;
  (if Bool.eqb result (actual_membership info) then
     print (nl +:+
            "✓ Test PASSED: Protocol correctly identified membership")
   else
     print (nl +:+
            "✗ Test FAILED: Protocol result does not match actual membership"));;
  mret (Bool.eqb result (actual_membership info)).

Definition main : M (Entropy * list string) unit :=
  print (str_repeat "=" 60);;
  print "Private Set-Membership Test Protocol - Demo";;
  print (str_repeat "=" 60);;
  let test_results := [] in
  (* Test 1: Small set, query is member *)
  t ← print_test_result "Small set - Query IS a member"
        5 [1; 3; 5; 7; 9] true;
  let test_results := test_results ++ [t] in
  (* Test 2: Small set, query is not member *)
  t ← print_test_result "Small set - Query is NOT a member"
        4 [1; 3; 5; 7; 9] false;
  let test_results := test_results ++ [t] in
  (* Test 3: Medium set *)
  t ← print_test_result "Medium set - Query is member"
        15 (seqZ 10 11) true;
  let test_results := test_results ++ [t] in
  (* Test 4: Larger set *)
  t ← print_test_result "Larger set - Query is member"
        50 (seqZ 1 100) true;
  let test_results := test_results ++ [t] in
  (* Test 5: Query not in larger set *)
  t ← print_test_result "Larger set - Query is NOT a member"
        150 (seqZ 1 100) false;
  let test_results := test_results ++ [t] in
  (* Test 6: Single element set *)
  t ← print_test_result "Single element set - Query is member"
        42 [42] true;
  let test_results := test_results ++ [t] in
  (* Test 7: Single element set - not member *)
  t ← print_test_result "Single element set - Query is NOT a member"
        43 [42] false;
  let test_results := test_results ++ [t] in
  (* Summary *)
  print (nl +:+ str_repeat "=" 60);;
  print "Summary";;
  print (str_repeat "=" 60);;
  let passed := sum_bool test_results in
  let total := Z.of_nat (length test_results) in
  print ("Tests passed: " +:+ pretty passed +:+ "/" +:+ pretty total);;
  if bool_decide (passed = total) then
    print "✓ All tests passed!"
  else
    print ("✗ " +:+ pretty (total - passed) +:+ " test(s) failed").
End demo.
End Demo.

(** ** The example usage at the end of [private_set_membership.py] *)

Section example_usage.
Context {Entropy : Type} `{!Paillier Entropy, !PyRuntime Entropy}.

(** ["✓ Correct!" if result == info['actual_membership'] else "✗ Incorrect!"] *)
Definition correct_text (result : bool) (info : protocol_info) : string :=
  if Bool.eqb result (actual_membership info) then "✓ Correct!"
  else "✗ Incorrect!".

Definition example_usage : M (Entropy * list string) unit :=
  print "Private Set-Membership Test Protocol Demo";;
  print (str_repeat "=" 50);;
  (* Test case 1: Query is in the set *)
  print (nl +:+ "Test 1: Query is IN the set");;
  let server_set := [5; 10; 15; 20; 25] in
  let query := 15 in
  '(result, info) ← silently (run_protocol query server_set default_key_length);
  print ("Server dataset: " +:+ str_list server_set);;
  print ("Client query: " +:+ pretty query);;
  print ("Protocol result: " +:+ member_text result);;
  print ("Actual membership: " +:+ member_text (actual_membership info));;
  print ("Decrypted result: " +:+ pretty (decrypted_result info));;
  print (correct_text result info);;
  (* Test case 2: Query is not in the set *)
  print (nl +:+ "Test 2: Query is NOT in the set");;
  let query := 30 in
  '(result, info) ← silently (run_protocol query server_set default_key_length);
  print ("Server dataset: " +:+ str_list server_set);;
  print ("Client query: " +:+ pretty query);;
  print ("Protocol result: " +:+ member_text result);;
  print ("Actual membership: " +:+ member_text (actual_membership info));;
  print ("Decrypted result: " +:+ pretty (decrypted_result info) +:+
         " (blinded, non-zero)");;
  print (correct_text result info);;
  (* Test case 3: Larger set *)
  print (nl +:+ "Test 3: Larger set");;
  let server_set := seqZ 1 20 in
  let query := 10 in
  '(result, info) ← silently (run_protocol query server_set default_key_length);
  print ("Server dataset size: " +:+ pretty (length server_set));;
  print ("Client query: " +:+ pretty query);;
  print ("Protocol result: " +:+ member_text result);;
  print ("Actual membership: " +:+ member_text (actual_membership info));;
  print (correct_text result info).
End example_usage.

(** ** Plain sums used to state what the Server computes *)

(** The sum of the products [a_k * v_k] of two lists, position by
    position. *)
Definition dot (coefficients values : list Z) : Z :=
  foldr Z.add 0 (zip_with Z.mul coefficients values).

(** The sum of a list of integers. *)
Definition sum_Z (l : list Z) : Z := foldr Z.add 0 l.

(** ** Lemmas on the encoder *)

Lemma for_each_app {A St} (xs ys : list A) (body : A → St → result St) st :
  for_each (xs ++ ys) body st = st' ← for_each xs body st; for_each ys body st'.
Proof.
  revert st. induction xs as [|x xs IH]; intros st; simpl; [done|].
  destruct (body x st) as [st'|e]; simpl; [apply IH | done].
Qed.

Lemma getitem_Some {A} (l : list A) i x : l !! i = Some x → getitem l i = Ok x.
Proof. unfold getitem. by intros ->. Qed.

Lemma setitem_lt {A} (l : list A) i x :
  (i < length l)%nat → setitem l i x = Ok (<[i:=x]> l).
Proof. unfold setitem. intros. by rewrite decide_True. Qed.

Lemma length_shift_scale prev p s :
  length (shift_scale prev p s) = S (length p).
Proof. revert prev. induction p as [|a p IH]; intros prev; simpl; [done|]. by rewrite IH. Qed.

Lemma shift_scale_lookup_0 prev p s :
  shift_scale prev p s !! 0%nat = Some ((p ++ [0]) !!! 0%nat + prev * (- s)).
Proof. destruct p; simpl; f_equal; lia. Qed.

Lemma shift_scale_lookup_S prev p s i c :
  p !! i = Some c →
  shift_scale prev p s !! S i = Some ((p ++ [0]) !!! S i + c * (- s)).
Proof.
  revert prev i. induction p as [|a p IH]; intros prev i Hc; [done|].
  destruct i as [|i]; simpl in *.
  - injection Hc as ->. by rewrite shift_scale_lookup_0.
  - by apply IH.
Qed.

Lemma shift_loop_ok (coeffs : list Z) k :
  (k ≤ length coeffs)%nat →
  for_each (seq 0 k)
    (λ i new_coeffs, c ← getitem coeffs i; setitem new_coeffs i c)
    (replicate (length coeffs + 1) 0)
  = Ok (take k coeffs ++ replicate (length coeffs + 1 - k) 0).
Proof.
  induction k as [|k IH]; intros Hk.
  - simpl. by rewrite Nat.sub_0_r.
  - rewrite seq_S, for_each_app, IH by lia. simpl.
    destruct (lookup_lt_is_Some_2 coeffs k) as [c Hc]; [lia|].
    rewrite (getitem_Some _ _ _ Hc). simpl.
    rewrite setitem_lt
      by (rewrite length_app, length_take, length_replicate; lia).
    simpl. f_equal. rewrite (take_S_r _ _ _ Hc), <- app_assoc. simpl.
    replace (length coeffs + 1 - k)%nat with (S (length coeffs + 1 - S k)) by lia.
    simpl. rewrite insert_app_r_alt by (rewrite length_take; lia).
    by rewrite length_take, Nat.min_l, Nat.sub_diag by lia.
Qed.

Lemma scale_loop_ok (coeffs : list Z) s k :
  (k ≤ length coeffs)%nat →
  for_each (seq 0 k)
    (λ i new_coeffs,
       old ← getitem new_coeffs (i + 1);
       c ← getitem coeffs i;
       setitem new_coeffs (i + 1) (old + c * (- s)))
    (coeffs ++ [0])
  = Ok (take (S k) (shift_scale 0 coeffs s) ++ drop (S k) (coeffs ++ [0])).
Proof.
  induction k as [|k IH]; intros Hk.
  - simpl. f_equal. destruct coeffs as [|a p]; simpl; [done|].
    rewrite drop_0. f_equal. lia.
  - rewrite seq_S, for_each_app, IH by lia. simpl.
    destruct (lookup_lt_is_Some_2 coeffs k) as [c Hc]; [lia|].
    pose proof (shift_scale_lookup_S 0 coeffs s k c Hc) as Hnew.
    assert (Hlen : length (take (S k) (shift_scale 0 coeffs s)) = S k).
    { rewrite length_take, length_shift_scale. lia. }
    destruct (lookup_lt_is_Some_2 (coeffs ++ [0]) (S k)) as [old Hold].
    { rewrite length_app. simpl. lia. }
    replace (k + 1)%nat with (S k) by lia.
    set (cur := take (S k) (shift_scale 0 coeffs s)) in *.
    assert (Hcur : (cur ++ drop (S k) (coeffs ++ [0])) !! S k = Some old).
    { by rewrite lookup_app_r, Hlen, Nat.sub_diag, lookup_drop, Nat.add_0_r by lia. }
    rewrite (getitem_Some _ _ _ Hcur), (getitem_Some _ _ _ Hc). simpl.
    rewrite setitem_lt.
    2:{ rewrite length_app, Hlen, length_drop, length_app. simpl. lia. }
    simpl. f_equal. rewrite (take_S_r _ _ _ Hnew).
    rewrite (list_lookup_total_correct _ _ _ Hold).
    rewrite insert_app_r_alt, Hlen, Nat.sub_diag by lia.
    rewrite (drop_S _ _ _ Hold). simpl. by rewrite <- app_assoc.
Qed.

(** The two loops of [multiply_step] never raise and compute [shift_scale]. *)
Lemma multiply_step_ok coeffs s :
  multiply_step coeffs s = Ok (shift_scale 0 coeffs s).
Proof.
  unfold multiply_step, range. rewrite Nat.sub_0_r.
  rewrite shift_loop_ok by done. simpl.
  rewrite firstn_all. replace (length coeffs + 1 - length coeffs)%nat with 1%nat by lia.
  simpl. rewrite scale_loop_ok by done. f_equal.
  rewrite take_ge by (rewrite length_shift_scale; lia).
  rewrite drop_ge by (rewrite length_app; simpl; lia).
  apply app_nil_r.
Qed.

Lemma for_each_multiply_step roots p :
  for_each roots (λ s_i coeffs, multiply_step coeffs s_i) p
  = Ok (foldl (shift_scale 0) p roots).
Proof.
  revert p. induction roots as [|s roots IH]; intros p; simpl; [done|].
  rewrite multiply_step_ok. simpl. apply IH.
Qed.

(** The encoder never raises on a dataset and its own length, and returns the
    monic polynomial of the roots. *)
Lemma compute_polynomial_coefficients_ok dataset :
  _compute_polynomial_coefficients dataset (length dataset)
  = Ok (monic_of_roots dataset).
Proof.
  unfold _compute_polynomial_coefficients, monic_of_roots.
  destruct dataset as [|s1 rest]; simpl; [done|].
  rewrite drop_0, for_each_multiply_step.
  replace (1 + 0 * - s1) with 1 by lia. by replace (1 * - s1) with (- s1) by lia.
Qed.

Lemma length_foldl_shift_scale roots p :
  length (foldl (shift_scale 0) p roots) = (length p + length roots)%nat.
Proof.
  revert p. induction roots as [|s roots IH]; intros p; simpl; [lia|].
  rewrite IH, length_shift_scale. lia.
Qed.

Lemma length_monic_of_roots roots :
  length (monic_of_roots roots) = S (length roots).
Proof. unfold monic_of_roots. by rewrite length_foldl_shift_scale. Qed.

Lemma head_foldl_shift_scale roots p :
  head p = Some 1 → head (foldl (shift_scale 0) p roots) = Some 1.
Proof.
  revert p. induction roots as [|s roots IH]; intros p Hp; simpl; [done|].
  apply IH. destruct p as [|a p]; simplify_eq/=. done.
Qed.

Lemma head_monic_of_roots roots : head (monic_of_roots roots) = Some 1.
Proof. by apply head_foldl_shift_scale. Qed.

(** Evaluation turns [shift_scale] into a multiplication by [(x - s)]. *)
Lemma poly_eval_shift_scale prev p s x :
  poly_eval (shift_scale prev p s) x
  = prev * (- s) * x ^ Z.of_nat (length p) + poly_eval p x * (x - s).
Proof.
  revert prev. induction p as [|a p IH]; intros prev; simpl poly_eval.
  - simpl. lia.
  - rewrite IH, length_shift_scale. simpl length.
    rewrite !Nat2Z.inj_succ, !Z.pow_succ_r by lia. lia.
Qed.

Lemma poly_eval_foldl_shift_scale roots p x :
  poly_eval (foldl (shift_scale 0) p roots) x
  = poly_eval p x * root_product roots x.
Proof.
  revert p. induction roots as [|s roots IH]; intros p; simpl.
  - lia.
  - rewrite IH, poly_eval_shift_scale. lia.
Qed.

(** The encoded polynomial evaluates to the product of the [(x - s)]. *)
Lemma poly_eval_monic_of_roots roots x :
  poly_eval (monic_of_roots roots) x = root_product roots x.
Proof.
  unfold monic_of_roots. rewrite poly_eval_foldl_shift_scale. simpl. lia.
Qed.

Lemma root_product_zero roots x : root_product roots x = 0 ↔ x ∈ roots.
Proof.
  induction roots as [|s roots IH]; simpl.
  - split; [lia | by intros ?%elem_of_nil].
  - rewrite elem_of_cons, <- IH. unfold root_product at 1. simpl.
    fold (root_product roots x). nia.
Qed.

Lemma root_product_perm roots1 roots2 x :
  roots1 ≡ₚ roots2 → root_product roots1 x = root_product roots2 x.
Proof.
  unfold root_product.
  induction 1 as [|s l1 l2 _ IH|s t l|l1 l2 l3 _ IH1 _ IH2]; simpl; lia.
Qed.

(** Two successive multiplications commute, coefficient by coefficient. *)
Lemma shift_scale_comm_gen u v p a b :
  shift_scale (u + v * (- a)) (shift_scale u p a) b
  = shift_scale (u + v * (- b)) (shift_scale u p b) a.
Proof.
  revert u v. induction p as [|c p IH]; intros u v; simpl.
  - f_equal; [lia | f_equal; lia].
  - f_equal; [lia | apply IH].
Qed.

Lemma shift_scale_comm p a b :
  shift_scale 0 (shift_scale 0 p a) b = shift_scale 0 (shift_scale 0 p b) a.
Proof.
  pose proof (shift_scale_comm_gen 0 0 p a b) as H.
  by rewrite !Z.mul_0_l, !Z.add_0_l in H.
Qed.

Lemma foldl_shift_scale_perm roots1 roots2 p :
  roots1 ≡ₚ roots2 →
  foldl (shift_scale 0) p roots1 = foldl (shift_scale 0) p roots2.
Proof.
  intros Hperm. revert p.
  induction Hperm as [|s l1 l2 _ IH|s t l|l1 l2 l3 _ IH1 _ IH2]; intros p; simpl.
  - done.
  - apply IH.
  - by rewrite shift_scale_comm.
  - by rewrite IH1.
Qed.

(** The encoding depends on the set of roots only, not on their order. *)
Lemma monic_of_roots_perm roots1 roots2 :
  roots1 ≡ₚ roots2 → monic_of_roots roots1 = monic_of_roots roots2.
Proof. apply foldl_shift_scale_perm. Qed.

(** ** Lemmas on polynomial evaluation *)

Lemma ascending_eval_app low a x i :
  ascending_eval (low ++ [a]) x i
  = ascending_eval low x i + a * x ^ Z.of_nat (i + length low).
Proof.
  revert i. induction low as [|b low IH]; intros i; simpl.
  - rewrite Nat.add_0_r. lia.
  - rewrite IH. replace (i + S (length low))%nat with (S i + length low)%nat by lia.
    lia.
Qed.

Lemma poly_eval_ascending p x : poly_eval p x = ascending_eval (reverse p) x 0.
Proof.
  induction p as [|a p IH]; simpl; [done|].
  rewrite reverse_cons, ascending_eval_app, length_reverse, IH. simpl. lia.
Qed.

(** ** Lemmas on the Server *)

Ltac unfold_m :=
  unfold mbind, m_bind, mret, m_ret, lift, draw, raise in *.

Section server_lemmas.
Context {Entropy : Type} `{!Paillier Entropy, !PyRuntime Entropy}.

(** Construction never raises. *)
Lemma Server_init_ok ds :
  Server.__init__ ds
  = Ok {| Server.dataset := list_of_set ds;
          Server.n := length (list_of_set ds);
          Server.coefficients := monic_of_roots (list_of_set ds) |}.
Proof.
  unfold Server.__init__. by rewrite compute_polynomial_coefficients_ok.
Qed.

Lemma Server_init_inv ds self :
  Server.__init__ ds = Ok self →
  Server.dataset self = list_of_set ds ∧
  Server.n self = length (list_of_set ds) ∧
  Server.coefficients self = monic_of_roots (list_of_set ds).
Proof. rewrite Server_init_ok. by intros [= <-]. Qed.

(** Public calls leave the Server as constructed. *)
Lemma Server_step_same self c g self' r g' :
  Server.step self c g = (Ok (self', r), g') → self' = self.
Proof.
  destruct c as [pk eps|ct m]; simpl; unfold_m.
  - destruct (Server.evaluate_polynomial_homomorphic self pk eps g)
      as [[ct|e] g1]; by intros [= <- _ _].
  - destruct (Server.blind_and_return self ct m g)
      as [[ct'|e] g1]; by intros [= <- _ _].
Qed.

Lemma Server_reachable_inv ds self :
  Server.reachable ds self → Server.__init__ ds = Ok self.
Proof.
  induction 1 as [self Hinit|self c g self' r g' _ IH Hstep]; [done|].
  by rewrite (Server_step_same _ _ _ _ _ _ Hstep).
Qed.
End server_lemmas.

(** ** Lemmas on deduplication *)

Lemma length_remove_dups_le (l : list Z) :
  (length (remove_dups l) ≤ length l)%nat.
Proof.
  induction l as [|x l IH]; simpl; [done|]. case_decide; simpl; lia.
Qed.

Lemma length_remove_dups_eq (l : list Z) :
  length (remove_dups l) = length l ↔ NoDup l.
Proof.
  induction l as [|x l IH]; simpl.
  - split; [constructor | done].
  - rewrite NoDup_cons. pose proof (length_remove_dups_le l).
    case_decide; simpl; [split; [lia | tauto]|].
    rewrite <- IH. split; [intros [= ?]; tauto | intros [_ ->]; done].
Qed.

Section runtime_lemmas.
Context {Entropy : Type} {R : PyRuntime Entropy} {RC : PyRuntimeContract R}.

Lemma list_of_set_remove_dups ds : list_of_set ds ≡ₚ remove_dups ds.
Proof.
  apply NoDup_Permutation.
  - apply NoDup_list_of_set.
  - apply NoDup_remove_dups.
  - intros x. by rewrite elem_of_list_of_set, elem_of_remove_dups.
Qed.

Lemma list_of_set_same_elements ds1 ds2 :
  (∀ x, x ∈ ds1 ↔ x ∈ ds2) → list_of_set ds1 ≡ₚ list_of_set ds2.
Proof.
  intros Hsame. apply NoDup_Permutation; try apply NoDup_list_of_set.
  intros x. by rewrite !elem_of_list_of_set.
Qed.

Lemma length_list_of_set ds :
  length (list_of_set ds) = length (remove_dups ds).
Proof. by rewrite list_of_set_remove_dups. Qed.
End runtime_lemmas.

(** ** Lemmas on the homomorphic evaluation *)

Section evaluation_lemmas.
Context {Entropy : Type} {P : Paillier Entropy} {PC : PaillierContract P}.

(** The loop of [evaluate_polynomial_homomorphic]: after [k] iterations
    the accumulator decrypts to the terms of degree at most [k]. *)
Lemma evaluate_loop_ok sk (cs : list Z) (n : nat)
    (eps : list EncryptedNumber) c r0 k :
  length cs = S n →
  length eps = n →
  (∀ j e, eps !! j = Some e → decrypt sk e = c ^ Z.of_nat (S j)) →
  decrypt sk r0 = ascending_eval (take 1 (reverse cs)) c 0 →
  (k ≤ n)%nat →
  ∃ r,
    for_each (seq 1 k)
      (λ k result,
         let coeff_index := (n - k)%nat in
         a_k ← getitem cs coeff_index;
         if decide (a_k ≠ 0) then
           power ← getitem eps (k - 1);
           let encrypted_term := enc_mul power a_k in
           Ok (enc_add result encrypted_term)
         else Ok result)
      r0 = Ok r ∧
    decrypt sk r = ascending_eval (take (S k) (reverse cs)) c 0.
Proof.
  intros Hcs Heps Hpow Hr0. induction k as [|k IH]; intros Hk.
  - by exists r0.
  - destruct IH as (r & Hloop & Hr); [lia|].
    rewrite seq_S, for_each_app, Hloop. simpl.
    destruct (lookup_lt_is_Some_2 (reverse cs) (S k)) as [a Ha].
    { rewrite length_reverse. lia. }
    destruct (lookup_lt_is_Some_2 eps k) as [e He]; [lia|].
    assert (Hidx : cs !! (n - S k)%nat = Some a).
    { rewrite reverse_lookup in Ha by lia. rewrite <- Ha. f_equal. lia. }
    rewrite (getitem_Some _ _ _ Hidx). simpl.
    rewrite (take_S_r _ _ _ Ha), ascending_eval_app, length_take, length_reverse.
    replace (0 + S k `min` length cs)%nat with (S k) by lia.
    case_decide as Hz.
    + replace (k - 0)%nat with k by lia.
      rewrite (getitem_Some _ _ _ He). simpl. eexists. split; [done|].
      rewrite decrypt_add, decrypt_mul, Hr, (Hpow _ _ He). lia.
    + eexists. split; [done|]. rewrite Hr. lia.
Qed.

(** A list of the right length whose entries decrypt to the powers of [c]
    is evaluated without error to a ciphertext of the polynomial value. *)
Lemma evaluate_ok (self : Server.t) pk sk eps c g :
  keypair pk sk →
  length (Server.coefficients self) = S (Server.n self) →
  length eps = Server.n self →
  (∀ j e, eps !! j = Some e → decrypt sk e = c ^ Z.of_nat (S j)) →
  ∃ ct g',
    Server.evaluate_polynomial_homomorphic self pk eps g = (Ok ct, g') ∧
    decrypt sk ct = poly_eval (Server.coefficients self) c.
Proof.
  intros (bits & g0 & g0' & Hkeys) Hcs Heps Hpow.
  unfold Server.evaluate_polynomial_homomorphic.
  rewrite decide_False by (intros ?; done).
  destruct (lookup_lt_is_Some_2 (reverse (Server.coefficients self)) 0)
    as [a0 Ha0]; [rewrite length_reverse; lia|].
  assert (Hlast : getitem_last (Server.coefficients self) = Ok a0).
  { unfold getitem_last. by rewrite <- head_reverse, head_lookup, Ha0. }
  destruct (encrypt pk a0 g) as [e0 g1] eqn:Henc.
  assert (He0 : decrypt sk e0 = a0).
  { pose proof (decrypt_encrypt bits g0 pk sk g0' a0 g Hkeys) as Hd.
    by rewrite Henc in Hd. }
  destruct (evaluate_loop_ok sk (Server.coefficients self) (Server.n self)
              eps c e0 (Server.n self)) as (r & Hloop & Hr); try done.
  { rewrite (take_S_r _ _ _ Ha0). simpl. lia. }
  unfold range. replace (Server.n self + 1 - 1)%nat with (Server.n self) by lia.
  unfold_m. rewrite Hlast, Henc, Hloop. exists r, g1. split; [done|].
  rewrite Hr, poly_eval_ascending, take_ge; [done|].
  rewrite length_reverse. lia.
Qed.

(** The length check is the only way to the mismatch error. *)
Lemma evaluate_mismatch (self : Server.t) pk eps g :
  length eps ≠ Server.n self →
  Server.evaluate_polynomial_homomorphic self pk eps g
  = (Raise (ValueError ("Expected " +:+ pretty (Server.n self) +:+
                        " encrypted powers, got " +:+
                        pretty (length eps))), g).
Proof.
  intros Hne. unfold Server.evaluate_polynomial_homomorphic.
  by rewrite decide_True.
Qed.

(** With the right length and a constructed coefficient list, evaluation
    returns, whatever the ciphertexts are. *)
Lemma evaluate_returns (self : Server.t) pk eps g :
  length (Server.coefficients self) = S (Server.n self) →
  length eps = Server.n self →
  ∃ ct g', Server.evaluate_polynomial_homomorphic self pk eps g = (Ok ct, g').
Proof.
  intros Hcs Heps. unfold Server.evaluate_polynomial_homomorphic.
  rewrite decide_False by (intros ?; done).
  destruct (lookup_lt_is_Some_2 (reverse (Server.coefficients self)) 0)
    as [a0 Ha0]; [rewrite length_reverse; lia|].
  assert (Hlast : getitem_last (Server.coefficients self) = Ok a0).
  { unfold getitem_last. by rewrite <- head_reverse, head_lookup, Ha0. }
  destruct (encrypt pk a0 g) as [e0 g1] eqn:Henc.
  unfold range. replace (Server.n self + 1 - 1)%nat with (Server.n self) by lia.
  assert (Hall : ∀ k, (k ≤ Server.n self)%nat → ∃ r,
    for_each (seq 1 k)
      (λ k result,
         let coeff_index := (Server.n self - k)%nat in
         a_k ← getitem (Server.coefficients self) coeff_index;
         if decide (a_k ≠ 0) then
           power ← getitem eps (k - 1);
           let encrypted_term := enc_mul power a_k in
           Ok (enc_add result encrypted_term)
         else Ok result)
      e0 = Ok r).
  { induction k as [|k IH]; intros Hk; [by eexists|].
    destruct IH as [r Hr]; [lia|].
    rewrite seq_S, for_each_app, Hr. simpl.
    destruct (lookup_lt_is_Some_2 (Server.coefficients self)
                (Server.n self - S k)) as [a Ha]; [lia|].
    destruct (lookup_lt_is_Some_2 eps k) as [e He]; [lia|].
    rewrite (getitem_Some _ _ _ Ha). simpl.
    case_decide; [|by eexists].
    replace (k - 0)%nat with k by lia.
    rewrite (getitem_Some _ _ _ He). simpl. by eexists. }
  destruct (Hall (Server.n self)) as [r Hr]; [done|].
  unfold_m. rewrite Hlast, Henc, Hr. by exists r, g1.
Qed.

(** The sum as the specification writes it decrypts to the same terms. *)
Lemma decrypt_homomorphic_sum sk e0 (low : list Z)
    (eps : list EncryptedNumber) c i :
  length low = length eps →
  (∀ j e, eps !! j = Some e → decrypt sk e = c ^ Z.of_nat (i + j)) →
  decrypt sk (Server.homomorphic_sum e0 low eps)
  = decrypt sk e0 + ascending_eval low c i.
Proof.
  unfold Server.homomorphic_sum.
  revert e0 low i. induction eps as [|e eps IH]; intros e0 low i Hlen Hpow.
  - destruct low; [simpl; lia | done].
  - destruct low as [|a low]; [done|]. simpl.
    rewrite (IH _ _ (S i)).
    + rewrite decrypt_add, decrypt_mul, (Hpow 0%nat e eq_refl).
      rewrite Nat.add_0_r. lia.
    + by injection Hlen.
    + intros j e' He'. rewrite (Hpow (S j) e' He'). f_equal. lia.
Qed.
End evaluation_lemmas.

(** ** Lemmas on the Client *)

Lemma for_each_m_app {Entropy A St} (xs ys : list A)
    (body : A → St → M Entropy St) st g :
  for_each_m (xs ++ ys) body st g
  = match for_each_m xs body st g with
    | (Ok st', g') => for_each_m ys body st' g'
    | (Raise e, g') => (Raise e, g')
    end.
Proof.
  revert st g. induction xs as [|x xs IH]; intros st g; simpl; [done|].
  unfold mbind, m_bind. destruct (body x st g) as [[st'|e] g']; [apply IH | done].
Qed.

Section client_lemmas.
Context {Entropy : Type} {P : Paillier Entropy}.

Lemma generate_keys_ok (self : Client.t) key_length g :
  ∃ pk sk g',
    generate_paillier_keypair key_length g = ((pk, sk), g') ∧
    Client.generate_keys self key_length g
    = (Ok ({| Client.public_key := Some pk; Client.private_key := Some sk |},
           pk), g').
Proof.
  unfold Client.generate_keys. unfold_m.
  destruct (generate_paillier_keypair key_length g) as [[pk sk] g'].
  by exists pk, sk, g'.
Qed.

(** After at least one [generate_keys], both keys are present. *)
Lemma after_generate_keys_app lens key_length g :
  ∃ pk sk g',
    Client.after_generate_keys (lens ++ [key_length]) g
    = ({| Client.public_key := Some pk; Client.private_key := Some sk |}, g') ∧
    keypair pk sk.
Proof.
  unfold Client.after_generate_keys. rewrite foldl_app. simpl.
  destruct (foldl _ _ lens) as [self g1].
  destruct (generate_keys_ok self key_length g1) as (pk & sk & g' & Hk & ->).
  exists pk, sk, g'. split; [done|]. by exists key_length, g1, g'.
Qed.

Lemma encrypt_query_no_keys (self : Client.t) c n g :
  Client.public_key self = None →
  Client.encrypt_query self c n g
  = (Raise (ValueError "Keys must be generated first. Call generate_keys()"),
     g).
Proof. unfold Client.encrypt_query. by intros ->. Qed.

Lemma decrypt_result_no_keys (self : Client.t) ct :
  Client.private_key self = None →
  Client.decrypt_result self ct
  = Raise (ValueError "Private key not available").
Proof. unfold Client.decrypt_result. by intros ->. Qed.

Lemma decrypt_result_ok (self : Client.t) sk ct :
  Client.private_key self = Some sk →
  Client.decrypt_result self ct = Ok (decrypt sk ct).
Proof. unfold Client.decrypt_result. by intros ->. Qed.

(** With a public key, [encrypt_query] returns [n] ciphertexts (none for a
    negative [n]). *)
Lemma encrypt_query_returns (self : Client.t) pk c n g :
  Client.public_key self = Some pk →
  ∃ eps g',
    Client.encrypt_query self c n g = (Ok eps, g') ∧
    length eps = Z.to_nat n.
Proof.
  intros Hpk. unfold Client.encrypt_query, range. rewrite Hpk.
  replace (Z.to_nat (n + 1) - 1)%nat with (Z.to_nat n) by lia.
  assert (Hloop : ∀ k g, ∃ eps cur g',
    for_each_m (seq 1 k)
      (λ k '(encrypted_powers, current_power),
         let current_power := current_power * c in
         e ← draw (encrypt pk current_power);
         mret (encrypted_powers ++ [e], current_power))
      ([], 1) g = (Ok (eps, cur), g') ∧ length eps = k).
  { clear g. induction k as [|k IH]; intros g; [by exists [], 1, g|].
    destruct (IH g) as (eps & cur & g1 & Hk & Hlen).
    rewrite seq_S, for_each_m_app, Hk. simpl. unfold_m.
    destruct (encrypt pk (cur * c) g1) as [e g2].
    exists (eps ++ [e]), (cur * c), g2. split; [done|].
    rewrite length_app. simpl. lia. }
  destruct (Hloop (Z.to_nat n) g) as (eps & cur & g' & Hk & Hlen).
  unfold_m. rewrite Hk. by exists eps, g'.
Qed.

(** Under the scheme's contract the [k]-th ciphertext decrypts to [c^k]. *)
Lemma encrypt_query_ok {PC : PaillierContract P} (self : Client.t)
    pk sk c n g :
  Client.public_key self = Some pk →
  keypair pk sk →
  ∃ eps g',
    Client.encrypt_query self c n g = (Ok eps, g') ∧
    length eps = Z.to_nat n ∧
    ∀ j e, eps !! j = Some e → decrypt sk e = c ^ Z.of_nat (S j).
Proof.
  intros Hpk (bits & g0 & g0' & Hkeys).
  unfold Client.encrypt_query, range. rewrite Hpk.
  replace (Z.to_nat (n + 1) - 1)%nat with (Z.to_nat n) by lia.
  assert (Hloop : ∀ k g, ∃ eps g',
    for_each_m (seq 1 k)
      (λ k '(encrypted_powers, current_power),
         let current_power := current_power * c in
         e ← draw (encrypt pk current_power);
         mret (encrypted_powers ++ [e], current_power))
      ([], 1) g = (Ok (eps, c ^ Z.of_nat k), g') ∧
    length eps = k ∧
    ∀ j e, eps !! j = Some e → decrypt sk e = c ^ Z.of_nat (S j)).
  { clear g. induction k as [|k IH]; intros g.
    { exists [], g. by split; [|split; [|intros j e ?]]. }
    destruct (IH g) as (eps & g1 & Hk & Hlen & Hpow).
    rewrite seq_S, for_each_m_app, Hk. simpl. unfold_m.
    destruct (encrypt pk (c ^ Z.of_nat k * c) g1) as [e g2] eqn:Henc.
    exists (eps ++ [e]), g2. split; [|split].
    - do 2 f_equal. f_equal. rewrite Nat2Z.inj_succ, Z.pow_succ_r by lia. lia.
    - rewrite length_app. simpl. lia.
    - intros j e' Hj. apply lookup_app_Some in Hj as [Hj|[Hge Hj]].
      + by apply Hpow.
      + rewrite Hlen in *. destruct (j - k)%nat as [|d] eqn:Hd; [|done].
        simpl in Hj. injection Hj as <-.
        pose proof (decrypt_encrypt bits g0 pk sk g0' (c ^ Z.of_nat k * c) g1
                      Hkeys) as Hdec.
        rewrite Henc in Hdec. simpl in Hdec. rewrite Hdec.
        replace j with k by lia.
        rewrite Nat2Z.inj_succ, Z.pow_succ_r by lia. lia. }
  destruct (Hloop (Z.to_nat n) g) as (eps & g' & Hk & Hlen & Hpow).
  unfold_m. rewrite Hk. by exists eps, g'.
Qed.
End client_lemmas.

(** ** Lemmas on blinding and on the whole run *)

Section protocol_lemmas.
Context {Entropy : Type} {P : Paillier Entropy} {R : PyRuntime Entropy}.
Context {PC : PaillierContract P} {RC : PyRuntimeContract R}.

Lemma blind_and_return_ok (self : Server.t) ct m g :
  1 ≤ m →
  ∃ r g',
    Server.blind_and_return self ct m g = (Ok (enc_mul ct r), g') ∧
    1 ≤ r ≤ m.
Proof.
  intros Hm. destruct (randint_range 1 m g Hm) as (r & Hr & Hrange).
  unfold Server.blind_and_return. unfold_m.
  destruct (randint 1 m g) as [res g']. simpl in Hr. subst res.
  by exists r, g'.
Qed.

(** A run never raises; the decrypted value is the product of the
    differences [q - s] over the distinct elements, times a blinding factor
    of [[1, 1000]]. *)
Lemma run_protocol_ok q ds key_length g :
  ∃ r g',
    1 ≤ r ≤ 1000 ∧
    let d := root_product (list_of_set ds) q * r in
    run_protocol q ds key_length g
    = (Ok (bool_decide (d = 0),
           {| query := q;
              dataset_size := length ds;
              polynomial_degree := length (list_of_set ds);
              info_coefficients := monic_of_roots (list_of_set ds);
              decrypted_result := d;
              is_member := bool_decide (d = 0);
              actual_membership := bool_decide (q ∈ ds) |}), g').
Proof.
  unfold run_protocol. rewrite Server_init_ok.
  set (server := {| Server.dataset := list_of_set ds |}).
  destruct (generate_keys_ok Client.__init__ key_length g)
    as (pk & sk & g1 & Hkeys & Hgen).
  set (client := {| Client.public_key := Some pk |}) in Hgen.
  assert (Hpair : keypair pk sk) by (by exists key_length, g, g1).
  destruct (encrypt_query_ok client pk sk q (Z.of_nat (Server.n server)) g1)
    as (eps & g2 & Henc & Hlen & Hpow); [done..|].
  rewrite Nat2Z.id in Hlen.
  destruct (evaluate_ok server pk sk eps q g2) as (ct & g3 & Hev & Hct);
    [done| |done..|].
  { simpl. apply length_monic_of_roots. }
  destruct (blind_and_return_ok server ct Server.default_max_blinding_factor g3)
    as (r & g4 & Hblind & Hr); [done|].
  exists r, g4. split; [done|]. unfold_m.
  rewrite Hgen, Henc, Hev, Hblind. simpl.
  simpl in Hct. rewrite poly_eval_monic_of_roots in Hct.
  by rewrite decrypt_mul, Hct.
Qed.

(** The verdict of a run is the ground truth. *)
Lemma blinded_zero_iff ds q r :
  1 ≤ r → root_product (list_of_set ds) q * r = 0 ↔ q ∈ ds.
Proof.
  intros Hr. rewrite <- elem_of_list_of_set, <- root_product_zero. nia.
Qed.
End protocol_lemmas.

(** ** The reference instance satisfies the contracts *)

Module ReferenceLaws.
Import Reference.

#[export] Instance paillier_contract : PaillierContract paillier.
Proof. split; intros; simpl in *; done. Qed.

#[export] Instance runtime_contract : PyRuntimeContract runtime.
Proof.
  split.
  - intros a b g Hab. simpl. rewrite decide_True by done. simpl.
    eexists. split; [done|].
    pose proof (Z.mod_pos_bound g (b - a + 1)). lia.
  - apply NoDup_remove_dups.
  - apply elem_of_remove_dups.
Qed.
End ReferenceLaws.

(** ** The encoding of the dataset *)

Section encoding_properties.
Context {Entropy : Type} {P : Paillier Entropy} {R : PyRuntime Entropy}.
Context {RC : PyRuntimeContract R}.

(** C2, polynomial root property: for every dataset and every element [s]
    of it, the Server is constructed and its coefficient list, evaluated
    at [s] as the plain integer sum of the [a_k * s^k], gives exactly 0. *)
Theorem polynomial_root_property (ds : list Z) (s : Z) :
  s ∈ ds →
  ∃ self,
    Server.__init__ ds = Ok self ∧
    poly_eval (Server.coefficients self) s = 0.
Proof.
  intros Hs. eexists. split; [apply Server_init_ok|]. simpl.
  rewrite poly_eval_monic_of_roots, root_product_zero.
  by apply elem_of_list_of_set.
Qed.

(** C3, non-root property: for every dataset (non-empty in the claim; the
    empty one gives the constant 1) and every integer [s'] outside it, the
    coefficient list evaluated at [s'] gives a non-zero integer. *)
Theorem polynomial_non_root_property (ds : list Z) (s' : Z) :
  ds ≠ [] →
  s' ∉ ds →
  ∃ self,
    Server.__init__ ds = Ok self ∧
    poly_eval (Server.coefficients self) s' ≠ 0.
Proof.
  intros _ Hs. eexists. split; [apply Server_init_ok|]. simpl.
  rewrite poly_eval_monic_of_roots, root_product_zero.
  by rewrite elem_of_list_of_set.
Qed.

(** C6, degree invariant: construction succeeds on every dataset, and in
    every Server state reachable from it [n] is the number of distinct
    elements, the coefficient list has length [n + 1] and its first
    (leading) coefficient is 1. *)
Theorem degree_invariant (ds : list Z) :
  (∃ self, Server.__init__ ds = Ok self) ∧
  ∀ self, Server.reachable ds self →
    Server.n self = length (remove_dups ds) ∧
    length (Server.coefficients self) = S (Server.n self) ∧
    head (Server.coefficients self) = Some 1.
Proof.
  split; [eexists; apply Server_init_ok|].
  intros self Hreach%Server_reachable_inv%Server_init_inv.
  destruct Hreach as (_ & Hn & Hcs). rewrite Hn, Hcs.
  by rewrite length_list_of_set, length_monic_of_roots, length_list_of_set,
    head_monic_of_roots.
Qed.

(** C9, the encoding depends on the set only: two datasets with the same
    elements, in any order and with any multiplicities, give Servers with
    the same degree and the same coefficient list; the stored dataset has
    no duplicates. *)
Theorem encoding_depends_on_set_only (ds1 ds2 : list Z) :
  (∀ x, x ∈ ds1 ↔ x ∈ ds2) →
  ∃ self1 self2,
    Server.__init__ ds1 = Ok self1 ∧
    Server.__init__ ds2 = Ok self2 ∧
    NoDup (Server.dataset self1) ∧
    NoDup (Server.dataset self2) ∧
    Server.n self1 = Server.n self2 ∧
    Server.coefficients self1 = Server.coefficients self2.
Proof.
  intros Hsame%list_of_set_same_elements.
  do 2 eexists. split; [apply Server_init_ok|].
  split; [apply Server_init_ok|]. simpl.
  split; [apply NoDup_list_of_set|]. split; [apply NoDup_list_of_set|].
  split; [by rewrite Hsame | by apply monic_of_roots_perm].
Qed.
End encoding_properties.

(** ** The error paths *)

Section error_properties.
Context {Entropy : Type} {P : Paillier Entropy} {R : PyRuntime Entropy}.

(** C7, degree mismatch: on a constructed Server, evaluation raises the
    "Expected n encrypted powers, got m" error exactly when the list's
    length differs from the degree [n]; it then returns no ciphertext and
    has used no randomness, and with the right length it returns one. *)
Theorem degree_mismatch_iff (ds : list Z) (self : Server.t)
    (pk : PublicKey) (eps : list EncryptedNumber) (g : Entropy) :
  Server.__init__ ds = Ok self →
  let out := Server.evaluate_polynomial_homomorphic self pk eps g in
  let mismatch :=
    ValueError ("Expected " +:+ pretty (Server.n self) +:+
                " encrypted powers, got " +:+ pretty (length eps)) in
  (out.1 = Raise mismatch ↔ length eps ≠ Server.n self) ∧
  (length eps ≠ Server.n self → out = (Raise mismatch, g)) ∧
  (length eps = Server.n self → ∃ ct, out.1 = Ok ct).
Proof.
  intros Hinit%Server_init_inv out mismatch.
  destruct Hinit as (_ & Hn & Hcs).
  assert (Hlen : length (Server.coefficients self) = S (Server.n self)).
  { by rewrite Hcs, Hn, length_monic_of_roots. }
  assert (Hok : length eps = Server.n self → ∃ ct, out.1 = Ok ct).
  { intros Heq. destruct (evaluate_returns self pk eps g Hlen Heq)
      as (ct & g' & Hev). exists ct. subst out. by rewrite Hev. }
  assert (Hbad : length eps ≠ Server.n self → out = (Raise mismatch, g)).
  { intros Hne. apply evaluate_mismatch, Hne. }
  split; [|done]. split.
  - intros Hraise Heq. destruct (Hok Heq) as [ct Hct]. congruence.
  - intros Hne. by rewrite (Hbad Hne).
Qed.

(** C8, keys not initialised: on a Client on which [generate_keys] was
    never called, [encrypt_query] and [decrypt_result] raise their
    missing-key errors; once it was called (any number of times) both
    return. *)
Theorem keys_not_initialized_iff (lens : list Z) (g g0 : Entropy)
    (c n : Z) (ct : EncryptedNumber) :
  let self := (Client.after_generate_keys lens g).1 in
  match lens with
  | [] =>
      Client.encrypt_query self c n g0
      = (Raise (ValueError
                  "Keys must be generated first. Call generate_keys()"), g0) ∧
      Client.decrypt_result self ct
      = Raise (ValueError "Private key not available")
  | _ :: _ =>
      (∃ eps g1, Client.encrypt_query self c n g0 = (Ok eps, g1)) ∧
      (∃ v, Client.decrypt_result self ct = Ok v)
  end.
Proof.
  destruct lens as [|key_length lens]; simpl.
  - split; [by apply encrypt_query_no_keys | by apply decrypt_result_no_keys].
  - destruct (exists_last (l := key_length :: lens)) as (lens' & k' & Heq);
      [done|].
    change (foldl _ _ lens) with
      (Client.after_generate_keys (key_length :: lens) g).
    rewrite Heq.
    destruct (after_generate_keys_app lens' k' g) as (pk & sk & g' & -> & _).
    simpl. split.
    + destruct (encrypt_query_returns
                  {| Client.public_key := Some pk;
                     Client.private_key := Some sk |} pk c n g0 eq_refl)
        as (eps & g1 & Henc & _). by exists eps, g1.
    + eexists. by apply decrypt_result_ok.
Qed.
End error_properties.

(** ** The protocol *)

Section protocol_properties.
Context {Entropy : Type} {P : Paillier Entropy} {R : PyRuntime Entropy}.
Context {PC : PaillierContract P} {RC : PyRuntimeContract R}.

(** C4, homomorphic evaluation: on a constructed Server, for a generated
    key pair and a list of [n] ciphertexts whose [k]-th entry decrypts to
    [c^k], evaluation returns a ciphertext that decrypts to the sum of the
    [a_k * c^k]; the sum written without skipping any term,
    [Enc(a_0) ⊕ Σ (encryptedPowers[k-1] ⊗ a_k)], decrypts to the same
    value. *)
Theorem homomorphic_evaluation_correct (ds : list Z) (self : Server.t)
    (pk : PublicKey) (sk : PrivateKey) (eps : list EncryptedNumber)
    (c : Z) (g : Entropy) :
  Server.__init__ ds = Ok self →
  keypair pk sk →
  length eps = Server.n self →
  (∀ j e, eps !! j = Some e → decrypt sk e = c ^ Z.of_nat (S j)) →
  ∃ ct g',
    Server.evaluate_polynomial_homomorphic self pk eps g = (Ok ct, g') ∧
    decrypt sk ct = poly_eval (Server.coefficients self) c ∧
    ∀ a_0 low g0,
      reverse (Server.coefficients self) = a_0 :: low →
      decrypt sk (Server.homomorphic_sum (encrypt pk a_0 g0).1 low eps)
      = decrypt sk ct.
Proof.
  intros Hinit%Server_init_inv Hpair Heps Hpow.
  destruct Hinit as (_ & Hn & Hcs).
  assert (Hlen : length (Server.coefficients self) = S (Server.n self)).
  { by rewrite Hcs, Hn, length_monic_of_roots. }
  destruct (evaluate_ok self pk sk eps c g Hpair Hlen Heps Hpow)
    as (ct & g' & Hev & Hct).
  exists ct, g'. split; [done|]. split; [done|].
  intros a_0 low g0 Hrev.
  destruct Hpair as (bits & g1 & g1' & Hkeys).
  rewrite (decrypt_homomorphic_sum sk _ low eps c 1).
  - rewrite (decrypt_encrypt bits g1 pk sk g1' a_0 g0 Hkeys).
    rewrite Hct, poly_eval_ascending, Hrev. simpl. lia.
  - apply (f_equal length) in Hrev. rewrite length_reverse in Hrev.
    simpl in Hrev. lia.
  - intros j e He. by apply Hpow.
Qed.

(** C5, blinding: for a bound [m ≥ 1] (1000 by default), the Server
    returns a ciphertext that decrypts to [r] times the plaintext of its
    input for some [r] of [[1, m]]; zero stays zero and non-zero stays
    non-zero. *)
Theorem blinding_preserves_zero_test (self : Server.t) (sk : PrivateKey)
    (ct : EncryptedNumber) (m : Z) (g : Entropy) :
  1 ≤ m →
  Server.default_max_blinding_factor = 1000 ∧
  ∃ r ct' g',
    Server.blind_and_return self ct m g = (Ok ct', g') ∧
    1 ≤ r ≤ m ∧
    decrypt sk ct' = r * decrypt sk ct ∧
    (decrypt sk ct = 0 → decrypt sk ct' = 0) ∧
    (decrypt sk ct ≠ 0 → decrypt sk ct' ≠ 0).
Proof.
  intros Hm. split; [done|].
  destruct (blind_and_return_ok self ct m g Hm) as (r & g' & Hblind & Hr).
  exists r, (enc_mul ct r), g'. rewrite decrypt_mul.
  repeat split; [done|lia..|nia].
Qed.

(** C1, end-to-end correctness: for every query and dataset a run returns,
    and its verdict is the ground truth [query in dataset]; on a member
    the decrypted result is exactly 0, on a non-member it is not; on the
    empty dataset the verdict is false. *)
Theorem run_protocol_correct (q : Z) (ds : list Z) (key_length : Z)
    (g : Entropy) :
  (∃ info g',
     run_protocol q ds key_length g
     = (Ok (bool_decide (q ∈ ds), info), g') ∧
     is_member info = bool_decide (q ∈ ds) ∧
     actual_membership info = bool_decide (q ∈ ds) ∧
     (decrypted_result info = 0 ↔ q ∈ ds)) ∧
  (∃ info g',
     run_protocol q [] key_length g = (Ok (false, info), g')).
Proof.
  assert (Hrun : ∀ ds, ∃ info g',
     run_protocol q ds key_length g
     = (Ok (bool_decide (q ∈ ds), info), g') ∧
     is_member info = bool_decide (q ∈ ds) ∧
     actual_membership info = bool_decide (q ∈ ds) ∧
     (decrypted_result info = 0 ↔ q ∈ ds)).
  { intros ds'.
    destruct (run_protocol_ok q ds' key_length g) as (r & g' & Hr & Hrun).
    simpl in Hrun.
    assert (Hiff := blinded_zero_iff ds' q r (proj1 Hr)).
    rewrite (bool_decide_ext _ _ Hiff) in Hrun.
    eexists _, g'. split; [exact Hrun|]. simpl. done. }
  split; [apply Hrun|].
  destruct (Hrun []) as (info & g' & Hempty & _).
  exists info, g'. by rewrite Hempty.
Qed.

(** C10, diagnostics on duplicates: a run reports the length of the raw
    input list as [dataset_size] and the number of distinct elements as
    [polynomial_degree]; the two are equal exactly when the input has no
    duplicates, the degree being smaller otherwise; the decrypted value is
    a blinded product over the distinct elements and the verdict is
    membership in the deduplicated dataset. *)
Theorem diagnostics_on_duplicates (q : Z) (ds : list Z) (key_length : Z)
    (g : Entropy) :
  ∃ verdict info g' r,
    run_protocol q ds key_length g = (Ok (verdict, info), g') ∧
    dataset_size info = length ds ∧
    polynomial_degree info = length (remove_dups ds) ∧
    (dataset_size info = polynomial_degree info ↔ NoDup ds) ∧
    (¬ NoDup ds → (polynomial_degree info < dataset_size info)%nat) ∧
    1 ≤ r ≤ 1000 ∧
    decrypted_result info = root_product (remove_dups ds) q * r ∧
    verdict = bool_decide (q ∈ remove_dups ds).
Proof.
  destruct (run_protocol_ok q ds key_length g) as (r & g' & Hr & Hrun).
  simpl in Hrun. eexists _, _, g', r. split; [exact Hrun|]. simpl.
  rewrite length_list_of_set.
  pose proof (length_remove_dups_le ds) as Hle.
  pose proof (length_remove_dups_eq ds) as Heq.
  split; [done|]. split; [done|].
  split; [rewrite <- Heq; split; intros; lia|].
  split; [intros Hdup; rewrite <- Heq in Hdup; lia|].
  split; [done|].
  split; [by rewrite (root_product_perm _ _ q (list_of_set_remove_dups ds))|].
  apply bool_decide_ext.
  by rewrite blinded_zero_iff, elem_of_remove_dups by lia.
Qed.
End protocol_properties.

(** ** The properties on the reference instance *)

Section reference_runs.
Import Reference ReferenceLaws.

(** The end-to-end scenarios, run with seed 42. *)

Example scenario_member :
  outcome (run_protocol 5 [1; 3; 5; 7; 9] default_key_length 42)
  = Some (true, 0).
Proof. vm_compute. reflexivity. Qed.

Example scenario_non_member :
  outcome (run_protocol 4 [1; 3; 5; 7; 9] default_key_length 42)
  = Some (false, -15030).
Proof. vm_compute. reflexivity. Qed.

Example scenario_range_member :
  outcome (run_protocol 15 (seqZ 10 11) default_key_length 42)
  = Some (true, 0).
Proof. vm_compute. reflexivity. Qed.

Example scenario_singleton :
  outcome (run_protocol 42 [42] default_key_length 42) = Some (true, 0) ∧
  fst <$> outcome (run_protocol 43 [42] default_key_length 42) = Some false.
Proof. vm_compute. split; reflexivity. Qed.

Example scenario_empty :
  fst <$> outcome (run_protocol 7 [] default_key_length 42) = Some false.
Proof. vm_compute. reflexivity. Qed.

Example scenario_large_non_member :
  fst <$> outcome (run_protocol 150 (seqZ 1 100) default_key_length 42)
  = Some false.
Proof. vm_compute. reflexivity. Qed.

Example scenario_duplicates :
  (run_protocol 4 [3; 3; 7] default_key_length 42).1
  = Ok (false, {| query := 4;
                  dataset_size := 3;
                  polynomial_degree := 2;
                  info_coefficients := [1; -10; 21];
                  decrypted_result := -2421;
                  is_member := false;
                  actual_membership := false |}).
Proof. vm_compute. reflexivity. Qed.

Example scenario_stale_degree :
  (Server.evaluate_polynomial_homomorphic server_135 7 [(2, 0)] 11).1
  = Raise (ValueError "Expected 3 encrypted powers, got 1").
Proof. vm_compute. reflexivity. Qed.

Lemma run_protocol_correct_witness :
  (∃ info g',
     run_protocol 5 [1; 3; 5; 7; 9] 1024 42
     = (Ok (bool_decide (5 ∈ [1; 3; 5; 7; 9]), info), g') ∧
     is_member info = bool_decide (5 ∈ [1; 3; 5; 7; 9]) ∧
     actual_membership info = bool_decide (5 ∈ [1; 3; 5; 7; 9]) ∧
     (decrypted_result info = 0 ↔ 5 ∈ [1; 3; 5; 7; 9])) ∧
  (∃ info g', run_protocol 5 [] 1024 42 = (Ok (false, info), g')).
Proof.
  apply (run_protocol_correct (PC := paillier_contract)
           (RC := runtime_contract) 5 [1; 3; 5; 7; 9] 1024 42).
Defined.

Lemma polynomial_root_property_witness :
  5 ∈ [1; 3; 5; 7; 9] ∧
  ∃ self,
    Server.__init__ [1; 3; 5; 7; 9] = Ok self ∧
    poly_eval (Server.coefficients self) 5 = 0.
Proof.
  assert (H : 5 ∈ [1; 3; 5; 7; 9]) by repeat constructor.
  split; [exact H|].
  apply (polynomial_root_property (RC := runtime_contract) _ _ H).
Defined.

Lemma polynomial_non_root_property_witness :
  ∃ self,
    Server.__init__ [1; 3; 5; 7; 9] = Ok self ∧
    poly_eval (Server.coefficients self) 4 ≠ 0.
Proof.
  apply (polynomial_non_root_property (RC := runtime_contract)
           [1; 3; 5; 7; 9] 4).
  - done.
  - rewrite !not_elem_of_cons. repeat split; [lia..|apply not_elem_of_nil].
Defined.

Lemma homomorphic_evaluation_correct_witness :
  ∃ ct g',
    Server.evaluate_polynomial_homomorphic server_135 7 [(2, 0); (4, 0); (8, 0)] 11
    = (Ok ct, g') ∧
    decrypt 7 ct = poly_eval (Server.coefficients server_135) 2 ∧
    ∀ a_0 low g0,
      reverse (Server.coefficients server_135) = a_0 :: low →
      decrypt 7 (Server.homomorphic_sum (encrypt 7 a_0 g0).1 low
                   [(2, 0); (4, 0); (8, 0)])
      = decrypt 7 ct.
Proof.
  apply (homomorphic_evaluation_correct (PC := paillier_contract)
           (R := runtime) [1; 3; 5] server_135 7 7
           [(2, 0); (4, 0); (8, 0)] 2 11).
  - reflexivity.
  - by exists 0, 7, (next 7).
  - reflexivity.
  - intros [|[|[|j]]] e; simpl; intros [= <-]; reflexivity.
Defined.

Lemma blinding_preserves_zero_test_witness :
  Server.default_max_blinding_factor = 1000 ∧
  ∃ r ct' g',
    Server.blind_and_return server_135 (6, 0) 1000 11 = (Ok ct', g') ∧
    1 ≤ r ≤ 1000 ∧
    decrypt 7 ct' = r * decrypt 7 (6, 0) ∧
    (decrypt 7 (6, 0) = 0 → decrypt 7 ct' = 0) ∧
    (decrypt 7 (6, 0) ≠ 0 → decrypt 7 ct' ≠ 0).
Proof.
  apply (blinding_preserves_zero_test (PC := paillier_contract)
           (RC := runtime_contract) server_135 7 (6, 0) 1000 11).
  lia.
Defined.

Lemma degree_invariant_witness :
  (∃ self, Server.__init__ [1; 3; 3; 5] = Ok self) ∧
  ∀ self, Server.reachable [1; 3; 3; 5] self →
    Server.n self = length (remove_dups [1; 3; 3; 5]) ∧
    length (Server.coefficients self) = S (Server.n self) ∧
    head (Server.coefficients self) = Some 1.
Proof.
  apply (degree_invariant (P := paillier) (RC := runtime_contract)
           [1; 3; 3; 5]).
Defined.

Lemma degree_mismatch_iff_witness :
  let out :=
    Server.evaluate_polynomial_homomorphic server_135 7 [(2, 0)] 11 in
  let mismatch := ValueError "Expected 3 encrypted powers, got 1" in
  (out.1 = Raise mismatch ↔ length [(2, 0)] ≠ Server.n server_135) ∧
  (length [(2, 0)] ≠ Server.n server_135 → out = (Raise mismatch, 11)) ∧
  (length [(2, 0)] = Server.n server_135 → ∃ ct, out.1 = Ok ct).
Proof.
  apply (degree_mismatch_iff (P := paillier) (R := runtime) [1; 3; 5] server_135 7
           [(2, 0)] 11).
  reflexivity.
Defined.

Lemma encoding_depends_on_set_only_witness :
  ∃ self1 self2,
    Server.__init__ [1; 3; 3] = Ok self1 ∧
    Server.__init__ [3; 1] = Ok self2 ∧
    NoDup (Server.dataset self1) ∧
    NoDup (Server.dataset self2) ∧
    Server.n self1 = Server.n self2 ∧
    Server.coefficients self1 = Server.coefficients self2.
Proof.
  apply (encoding_depends_on_set_only (RC := runtime_contract)
           [1; 3; 3] [3; 1]).
  intros x. rewrite !elem_of_cons, elem_of_nil. tauto.
Defined.

Lemma diagnostics_on_duplicates_witness :
  ∃ verdict info g' r,
    run_protocol 4 [3; 3; 7] 1024 42 = (Ok (verdict, info), g') ∧
    dataset_size info = length [3; 3; 7] ∧
    polynomial_degree info = length (remove_dups [3; 3; 7]) ∧
    (dataset_size info = polynomial_degree info ↔ NoDup [3; 3; 7]) ∧
    (¬ NoDup [3; 3; 7] → (polynomial_degree info < dataset_size info)%nat) ∧
    1 ≤ r ≤ 1000 ∧
    decrypted_result info = root_product (remove_dups [3; 3; 7]) 4 * r ∧
    verdict = bool_decide (4 ∈ remove_dups [3; 3; 7]).
Proof.
  apply (diagnostics_on_duplicates (PC := paillier_contract)
           (RC := runtime_contract) 4 [3; 3; 7] 1024 42).
Defined.
End reference_runs.

(** ** Further properties of the encoder *)

Lemma poly_eval_at_0 p : poly_eval p 0 = default 0 (last p).
Proof.
  induction p as [|a p IH]; simpl poly_eval; [done|].
  destruct p as [|b p]; [simpl; lia|].
  rewrite IH. simpl length. rewrite Nat2Z.inj_succ, Z.pow_succ_r by lia.
  simpl last. lia.
Qed.

Lemma monic_of_roots_snoc roots s :
  monic_of_roots (roots ++ [s]) = shift_scale 0 (monic_of_roots roots) s.
Proof. unfold monic_of_roots. by rewrite foldl_app. Qed.

(** The coefficient of [x^(n-1)] along the encoder's loop. *)
Lemma second_foldl_shift_scale roots p :
  head p = Some 1 →
  default 0 (foldl (shift_scale 0) p roots !! 1%nat)
  = default 0 (p !! 1%nat) - sum_Z roots.
Proof.
  revert p. induction roots as [|s roots IH]; intros p Hp; simpl; [lia|].
  rewrite IH.
  - destruct p as [|a [|b p]]; simplify_eq/=; lia.
  - by destruct p as [|a p]; simplify_eq/=.
Qed.

Lemma sum_Z_perm l1 l2 : l1 ≡ₚ l2 → sum_Z l1 = sum_Z l2.
Proof.
  unfold sum_Z.
  induction 1 as [|s k1 k2 _ IH|s t l|k1 k2 k3 _ IH1 _ IH2]; simpl; lia.
Qed.

(** The body of the encoder's loop, on any coefficient list: its two index
    loops never raise, the result is one coefficient longer, keeps the
    leading coefficient, and evaluates to the old value times [(x - s_i)]. *)
Theorem multiply_step_multiplies (coeffs : list Z) (s_i : Z) :
  ∃ new_coeffs,
    multiply_step coeffs s_i = Ok new_coeffs ∧
    length new_coeffs = S (length coeffs) ∧
    (∀ a, head coeffs = Some a → head new_coeffs = Some a) ∧
    ∀ x, poly_eval new_coeffs x = poly_eval coeffs x * (x - s_i).
Proof.
  exists (shift_scale 0 coeffs s_i). split; [apply multiply_step_ok|].
  split; [apply length_shift_scale|]. split.
  - intros a Ha. destruct coeffs as [|b p]; simplify_eq/=. f_equal. lia.
  - intros x. rewrite poly_eval_shift_scale. lia.
Qed.

Section encoder_extras.
Context {Entropy : Type} {R : PyRuntime Entropy} {RC : PyRuntimeContract R}.

(** At every integer [x] the encoded polynomial takes the value of the
    product of the [(x - s)] over the distinct elements of the dataset: each
    element is a simple root, whatever its multiplicity in the input. *)
Theorem polynomial_factorisation (ds : list Z) (x : Z) :
  ∃ self,
    Server.__init__ ds = Ok self ∧
    poly_eval (Server.coefficients self) x = root_product (remove_dups ds) x.
Proof.
  eexists. split; [apply Server_init_ok|]. simpl.
  rewrite poly_eval_monic_of_roots.
  apply root_product_perm, list_of_set_remove_dups.
Qed.

(** Vieta's formulas, as the docstring announces: the constant term is the
    product of the negated distinct elements, and for a non-empty dataset
    the coefficient after the leading one is minus their sum. *)
Theorem vieta_formulas (ds : list Z) :
  ∃ self,
    Server.__init__ ds = Ok self ∧
    last (Server.coefficients self)
    = Some (root_product (remove_dups ds) 0) ∧
    (ds ≠ [] →
     Server.coefficients self !! 1%nat = Some (- sum_Z (remove_dups ds))).
Proof.
  eexists. split; [apply Server_init_ok|]. simpl.
  pose proof (list_of_set_remove_dups ds) as Hperm.
  rewrite (monic_of_roots_perm _ _ Hperm). split.
  - pose proof (poly_eval_at_0 (monic_of_roots (remove_dups ds))) as H0.
    rewrite poly_eval_monic_of_roots in H0.
    destruct (last (monic_of_roots (remove_dups ds))) as [a|] eqn:Hlast.
    + simpl in H0. by rewrite H0.
    + apply last_None in Hlast. apply (f_equal length) in Hlast.
      by rewrite length_monic_of_roots in Hlast.
  - intros Hne.
    pose proof (second_foldl_shift_scale (remove_dups ds) [1] eq_refl) as H1.
    fold (monic_of_roots (remove_dups ds)) in H1. simpl in H1.
    destruct (lookup_lt_is_Some_2 (monic_of_roots (remove_dups ds)) 1)
      as [b Hb].
    + rewrite length_monic_of_roots.
      destruct (remove_dups ds) as [|y l] eqn:Hd; [|simpl; lia].
      destruct ds as [|z ds]; [done|].
      assert (Hz : z ∈ remove_dups (z :: ds))
        by (apply elem_of_remove_dups; left).
      rewrite Hd in Hz. by apply elem_of_nil in Hz.
    + rewrite Hb in *. simpl in H1. f_equal. lia.
Qed.

(** The polynomial is the constant [[1]], of degree 0, exactly for the empty
    dataset. *)
Theorem constant_polynomial_iff_empty (ds : list Z) :
  ∃ self,
    Server.__init__ ds = Ok self ∧
    (Server.coefficients self = [1] ↔ ds = []) ∧
    (Server.n self = 0%nat ↔ ds = []).
Proof.
  eexists. split; [apply Server_init_ok|]. simpl.
  assert (Hnil : list_of_set ds = [] ↔ ds = []).
  { split.
    - intros Hl. destruct ds as [|z ds]; [done|].
      assert (Hz : z ∈ list_of_set (z :: ds))
        by (apply elem_of_list_of_set; left).
      rewrite Hl in Hz. by apply elem_of_nil in Hz.
    - intros ->. destruct (list_of_set []) as [|y l] eqn:Hl; [done|].
      assert (Hy : y ∈ list_of_set []) by (rewrite Hl; left).
      apply (proj1 (elem_of_list_of_set _ _)) in Hy.
      by apply elem_of_nil in Hy. }
  split.
  - rewrite <- Hnil. split.
    + intros Hc. apply (f_equal length) in Hc.
      rewrite length_monic_of_roots in Hc. simpl in Hc.
      by destruct (list_of_set ds).
    + by intros ->.
  - rewrite <- Hnil. by destruct (list_of_set ds).
Qed.

(** The encoding is incremental: for an element [s] that is not yet in the
    dataset, one more round of the loop body on the stored coefficients gives
    the coefficients of the Server constructed on the enlarged dataset. *)
Theorem encoder_incremental (ds : list Z) (s : Z) (self : Server.t) :
  s ∉ ds →
  Server.__init__ ds = Ok self →
  ∃ self',
    Server.__init__ (s :: ds) = Ok self' ∧
    Server.n self' = S (Server.n self) ∧
    multiply_step (Server.coefficients self) s
    = Ok (Server.coefficients self').
Proof.
  intros Hs Hinit%Server_init_inv. destruct Hinit as (_ & Hn & Hcs).
  eexists. split; [apply Server_init_ok|]. simpl.
  assert (Hperm : list_of_set (s :: ds) ≡ₚ list_of_set ds ++ [s]).
  { apply NoDup_Permutation.
    - apply NoDup_list_of_set.
    - apply NoDup_app. split; [apply NoDup_list_of_set|]. split.
      + intros y Hy ->%list_elem_of_singleton.
        by apply (proj1 (elem_of_list_of_set _ _)) in Hy.
      + apply NoDup_singleton.
    - intros y. rewrite elem_of_list_of_set, elem_of_app,
        elem_of_list_of_set, elem_of_cons, list_elem_of_singleton. tauto. }
  split.
  - rewrite Hn, Hperm, length_app. simpl. lia.
  - rewrite multiply_step_ok, Hcs, (monic_of_roots_perm _ _ Hperm).
    by rewrite monic_of_roots_snoc.
Qed.
End encoder_extras.

(** ** Further properties of the Client *)

Section client_extras.
Context {Entropy : Type} {P : Paillier Entropy} {PC : PaillierContract P}.

(** What [encrypt_query] returns once keys exist: [n] ciphertexts (none for
    [n ≤ 0]), in order, the [k]-th being an encryption of [c^k] under the
    Client's own public key. *)
Theorem encrypt_query_powers (self : Client.t) (pk : PublicKey)
    (sk : PrivateKey) (c n : Z) (g : Entropy) :
  Client.public_key self = Some pk →
  keypair pk sk →
  ∃ eps g',
    Client.encrypt_query self c n g = (Ok eps, g') ∧
    length eps = Z.to_nat n ∧
    decrypt sk <$> eps = (λ k, c ^ Z.of_nat k) <$> seq 1 (Z.to_nat n).
Proof.
  intros Hpk Hpair.
  destruct (encrypt_query_ok self pk sk c n g Hpk Hpair)
    as (eps & g' & Henc & Hlen & Hpow).
  exists eps, g'. split; [done|]. split; [done|].
  apply list_eq. intros k. rewrite !list_lookup_fmap.
  destruct (eps !! k) as [e|] eqn:He; simpl.
  - rewrite (Hpow k e He).
    apply lookup_lt_Some in He. rewrite Hlen in He.
    by rewrite lookup_seq_lt.
  - apply lookup_ge_None in He. rewrite Hlen in He.
    by rewrite lookup_seq_ge.
Qed.

(** Key generation followed by decryption is a round trip: the public key
    returned by [generate_keys] is the one the Client stores, and whatever is
    encrypted under it is decrypted by [decrypt_result] to the same
    integer, whatever keys the Client held before. *)
Theorem generate_keys_round_trip (self : Client.t) (key_length : Z)
    (g : Entropy) :
  ∃ self' pk g',
    Client.generate_keys self key_length g = (Ok (self', pk), g') ∧
    Client.public_key self' = Some pk ∧
    ∀ m g1, Client.decrypt_result self' (encrypt pk m g1).1 = Ok m.
Proof.
  destruct (generate_keys_ok self key_length g) as (pk & sk & g' & Hk & Hgen).
  eexists _, pk, g'. split; [exact Hgen|]. split; [done|].
  intros m g1. simpl. unfold Client.decrypt_result. simpl.
  by rewrite (decrypt_encrypt key_length g pk sk g' m g1 Hk).
Qed.
End client_extras.

(** For a non-positive degree [encrypt_query] encrypts nothing: it returns
    the empty list and draws no randomness. *)
Theorem encrypt_query_non_positive {Entropy} {P : Paillier Entropy}
    (self : Client.t) (pk : PublicKey) (c n : Z) (g : Entropy) :
  Client.public_key self = Some pk →
  n ≤ 0 →
  Client.encrypt_query self c n g = (Ok [], g).
Proof.
  intros Hpk Hn. unfold Client.encrypt_query, range. rewrite Hpk.
  by replace (Z.to_nat (n + 1) - 1)%nat with 0%nat by lia.
Qed.

(** ** Further properties of the homomorphic evaluation *)

Lemma foldr_add_acc (l : list Z) z : foldr Z.add z l = sum_Z l + z.
Proof. unfold sum_Z. induction l as [|a l IH]; simpl; lia. Qed.

Lemma dot_snoc (l vs : list Z) a v :
  length l = length vs → dot (l ++ [a]) (vs ++ [v]) = dot l vs + a * v.
Proof.
  intros Hlen. unfold dot. rewrite zip_with_app by done. simpl.
  rewrite foldr_app. simpl. rewrite foldr_add_acc. unfold sum_Z. lia.
Qed.

Section evaluation_extras.
Context {Entropy : Type} {P : Paillier Entropy} {PC : PaillierContract P}.

(** The loop of the evaluation on arbitrary ciphertexts: after [k]
    iterations the accumulator has gained the first [k] products. *)
Lemma evaluate_loop_linear sk (cs : list Z) (n : nat)
    (eps : list EncryptedNumber) a_0 low r0 k :
  reverse cs = a_0 :: low →
  length cs = S n →
  length eps = n →
  (k ≤ n)%nat →
  ∃ r,
    for_each (seq 1 k)
      (λ k result,
         let coeff_index := (n - k)%nat in
         a_k ← getitem cs coeff_index;
         if decide (a_k ≠ 0) then
           power ← getitem eps (k - 1);
           let encrypted_term := enc_mul power a_k in
           Ok (enc_add result encrypted_term)
         else Ok result)
      r0 = Ok r ∧
    decrypt sk r
    = decrypt sk r0 + dot (take k low) (take k (decrypt sk <$> eps)).
Proof.
  intros Hrev Hcs Heps. induction k as [|k IH]; intros Hk.
  - exists r0. split; [done|]. unfold dot. simpl. lia.
  - destruct IH as (r & Hloop & Hr); [lia|].
    rewrite seq_S, for_each_app, Hloop. simpl.
    assert (Hlow : length low = n).
    { apply (f_equal length) in Hrev. rewrite length_reverse in Hrev.
      simpl in Hrev. lia. }
    destruct (lookup_lt_is_Some_2 low k) as [a Ha]; [lia|].
    destruct (lookup_lt_is_Some_2 eps k) as [e He]; [lia|].
    assert (Hidx : cs !! (n - S k)%nat = Some a).
    { assert (Hr' : reverse cs !! S k = Some a) by (by rewrite Hrev).
      rewrite reverse_lookup in Hr' by lia. rewrite <- Hr'. f_equal. lia. }
    assert (Hv : (decrypt sk <$> eps) !! k = Some (decrypt sk e)).
    { by rewrite list_lookup_fmap, He. }
    rewrite (getitem_Some _ _ _ Hidx). simpl.
    rewrite (take_S_r _ _ _ Ha), (take_S_r _ _ _ Hv), dot_snoc.
    2:{ rewrite !length_take, length_fmap. lia. }
    case_decide as Hz.
    + replace (k - 0)%nat with k by lia.
      rewrite (getitem_Some _ _ _ He). simpl. eexists. split; [done|].
      rewrite decrypt_add, decrypt_mul, Hr. lia.
    + eexists. split; [done|]. rewrite Hr. lia.
Qed.

(** What the Server computes on any list of [n] ciphertexts, powers of one
    value or not: a ciphertext of [a_0 + Σ a_k * v_k], where [v_k] is the
    plaintext of the [k]-th entry.  The only randomness drawn is that of
    the encryption of the constant term. *)
Theorem evaluation_is_linear {R : PyRuntime Entropy} (ds : list Z)
    (self : Server.t) (pk : PublicKey) (sk : PrivateKey)
    (eps : list EncryptedNumber) (g : Entropy) :
  Server.__init__ ds = Ok self →
  keypair pk sk →
  length eps = Server.n self →
  ∃ a_0 low ct,
    reverse (Server.coefficients self) = a_0 :: low ∧
    Server.evaluate_polynomial_homomorphic self pk eps g
    = (Ok ct, (encrypt pk a_0 g).2) ∧
    decrypt sk ct = a_0 + dot low (decrypt sk <$> eps).
Proof.
  intros Hinit%Server_init_inv (bits & g0 & g0' & Hkeys) Heps.
  destruct Hinit as (_ & Hn & Hcs).
  assert (Hlen : length (Server.coefficients self) = S (Server.n self)).
  { by rewrite Hcs, Hn, length_monic_of_roots. }
  destruct (reverse (Server.coefficients self)) as [|a_0 low] eqn:Hrev.
  { apply (f_equal length) in Hrev. rewrite length_reverse in Hrev.
    simpl in Hrev. lia. }
  assert (Hlow : length low = Server.n self).
  { apply (f_equal length) in Hrev. rewrite length_reverse in Hrev.
    simpl in Hrev. lia. }
  assert (Hlast : getitem_last (Server.coefficients self) = Ok a_0).
  { unfold getitem_last. by rewrite <- head_reverse, Hrev. }
  destruct (encrypt pk a_0 g) as [e0 g1] eqn:Henc.
  assert (He0 : decrypt sk e0 = a_0).
  { pose proof (decrypt_encrypt bits g0 pk sk g0' a_0 g Hkeys) as Hd.
    by rewrite Henc in Hd. }
  destruct (evaluate_loop_linear sk (Server.coefficients self)
              (Server.n self) eps a_0 low e0 (Server.n self))
    as (r & Hloop & Hr); try done.
  exists a_0, low, r. split; [done|].
  unfold Server.evaluate_polynomial_homomorphic.
  rewrite decide_False by (intros ?; done).
  unfold range. replace (Server.n self + 1 - 1)%nat with (Server.n self) by lia.
  unfold_m. rewrite Hlast, Henc, Hloop. split; [done|].
  rewrite Hr, He0, !take_ge; [done| |lia].
  rewrite length_fmap. lia.
Qed.
End evaluation_extras.

(** ** Further properties of blinding and of a run *)


Section run_extras.
Context {Entropy : Type} {P : Paillier Entropy} {R : PyRuntime Entropy}.
Context {PC : PaillierContract P} {RC : PyRuntimeContract R}.

(** With [max_blinding_factor = 1] the only possible factor is 1: the
    returned ciphertext decrypts to the very value that was to be hidden. *)
Theorem blinding_factor_one_hides_nothing (self : Server.t) (sk : PrivateKey)
    (ct : EncryptedNumber) (g : Entropy) :
  ∃ ct' g',
    Server.blind_and_return self ct 1 g = (Ok ct', g') ∧
    decrypt sk ct' = decrypt sk ct.
Proof.
  destruct (blind_and_return_ok self ct 1 g) as (r & g' & Hblind & Hr); [lia|].
  exists (enc_mul ct r), g'. split; [done|]. rewrite decrypt_mul.
  replace r with 1 by lia. lia.
Qed.

(** What the blinded value still tells the Client: it is the product of the
    differences [q - s] over the distinct elements times a factor of
    [[1, 1000]], so it has the sign of that product, is a multiple of it,
    and is at most 1000 times larger in absolute value. *)
Theorem blinded_result_reveals_sign_and_multiple (q : Z) (ds : list Z)
    (key_length : Z) (g : Entropy) :
  ∃ verdict info g',
    run_protocol q ds key_length g = (Ok (verdict, info), g') ∧
    let p := root_product (remove_dups ds) q in
    Z.sgn (decrypted_result info) = Z.sgn p ∧
    (p | decrypted_result info) ∧
    Z.abs p ≤ Z.abs (decrypted_result info) ≤ 1000 * Z.abs p.
Proof.
  destruct (run_protocol_ok q ds key_length g) as (r & g' & Hr & Hrun).
  simpl in Hrun. eexists _, _, g'. split; [exact Hrun|]. simpl.
  rewrite (root_product_perm _ _ q (list_of_set_remove_dups ds)).
  set (p := root_product (remove_dups ds) q).
  split; [|split].
  - rewrite Z.sgn_mul. replace (Z.sgn r) with 1 by lia. lia.
  - exists r. lia.
  - rewrite Z.abs_mul. replace (Z.abs r) with r by lia.
    pose proof (Z.abs_nonneg p). nia.
Qed.

(** On the empty dataset the polynomial is the constant 1, so the verdict is
    false for every query and the decrypted result is the blinding factor
    itself, an integer of [[1, 1000]]. *)
Theorem empty_dataset_run (q : Z) (key_length : Z) (g : Entropy) :
  ∃ info g',
    run_protocol q [] key_length g = (Ok (false, info), g') ∧
    polynomial_degree info = 0%nat ∧
    info_coefficients info = [1] ∧
    1 ≤ decrypted_result info ≤ 1000.
Proof.
  destruct (run_protocol_ok q [] key_length g) as (r & g' & Hr & Hrun).
  simpl in Hrun.
  assert (Hnil : list_of_set [] = []).
  { destruct (list_of_set []) as [|y l] eqn:Hl; [done|].
    assert (Hy : y ∈ list_of_set []) by (rewrite Hl; left).
    apply (proj1 (elem_of_list_of_set _ _)) in Hy.
    by apply elem_of_nil in Hy. }
  rewrite Hnil in Hrun. simpl in Hrun.
  replace (bool_decide (1 * r = 0)) with false in Hrun
    by (symmetry; apply bool_decide_eq_false; lia).
  eexists _, g'. split; [exact Hrun|]. simpl.
  split; [done|]. split; [done|]. lia.
Qed.
End run_extras.

(** ** The programs that print *)

Lemma mbind_run {Entropy A B} (m : M Entropy A) (f : A → M Entropy B) w a w' :
  m w = (Ok a, w') → (m ≫= f) w = f a w'.
Proof. unfold mbind, m_bind. by intros ->. Qed.

Lemma print_run {Entropy} (text : string) (g : Entropy) out :
  print text (g, out) = (Ok (), (g, out ++ [text])).
Proof. done. Qed.

Lemma silently_run {Entropy A} (m : M Entropy A) g out r g' :
  m g = (r, g') → silently m (g, out) = (r, (g', out)).
Proof. unfold silently. by intros ->. Qed.

Ltac run_print := erewrite mbind_run; [|apply print_run]; cbv beta.

Section printing_properties.
Context {Entropy : Type} {P : Paillier Entropy} {R : PyRuntime Entropy}.
Context {PC : PaillierContract P} {RC : PyRuntimeContract R}.

(** A run in the form the printing programs use it. *)
Lemma run_protocol_report q ds key_length g :
  ∃ r g' coefficients,
    1 ≤ r ≤ 1000 ∧
    run_protocol q ds key_length g
    = (Ok (bool_decide (q ∈ ds),
           {| query := q;
              dataset_size := length ds;
              polynomial_degree := length (remove_dups ds);
              info_coefficients := coefficients;
              decrypted_result := root_product (remove_dups ds) q * r;
              is_member := bool_decide (q ∈ ds);
              actual_membership := bool_decide (q ∈ ds) |}), g').
Proof.
  destruct (run_protocol_ok q ds key_length g) as (r & g' & Hr & Hrun).
  cbv zeta in Hrun.
  rewrite (bool_decide_ext _ _ (blinded_zero_iff ds q r (proj1 Hr))) in Hrun.
  rewrite (root_product_perm _ _ q (list_of_set_remove_dups ds)),
    length_list_of_set in Hrun.
  by exists r, g', (monic_of_roots (list_of_set ds)).
Qed.

(** The whole output of [print_test_result]. *)
Lemma print_test_result_report (test_name : string) (q : Z)
    (ds : list Z) (expected : bool) (g : Entropy) (out : list string) :
  ∃ r g',
    1 ≤ r ≤ 1000 ∧
    Demo.print_test_result test_name q ds expected (g, out)
    = (Ok true,
       (g', out ++
         [nl +:+ str_repeat "=" 60;
          "Test: " +:+ test_name;
          str_repeat "=" 60;
          "Server dataset: " +:+ str_list ds;
          "Dataset size: " +:+ pretty (length ds);
          "Client query: " +:+ pretty q;
          nl +:+ "Protocol execution:";
          "  - Polynomial degree: " +:+ pretty (length (remove_dups ds));
          "  - Decrypted result: " +:+
            pretty (root_product (remove_dups ds) q * r);
          "  - Protocol says: " +:+ member_text (bool_decide (q ∈ ds));
          "  - Actually is member: " +:+ str_bool (bool_decide (q ∈ ds));
          nl +:+
            "✓ Test PASSED: Protocol correctly identified membership"])).
Proof.
  destruct (run_protocol_report q ds default_key_length g)
    as (r & g' & cs & Hr & Hrun).
  exists r, g'. split; [done|]. unfold Demo.print_test_result.
  do 6 run_print.
  erewrite mbind_run; [|apply silently_run, Hrun]. cbv beta iota.
  cbn [polynomial_degree decrypted_result actual_membership].
  do 5 run_print. rewrite Bool.eqb_reflx. run_print.
  unfold mret, m_ret. by rewrite <- !app_assoc.
Qed.


Lemma print_test_result_lines (test_name : string) (q : Z)
    (ds : list Z) (expected : bool) (g : Entropy) (out : list string) :
  ∃ lines g',
    Demo.print_test_result test_name q ds expected (g, out)
    = (Ok true, (g', out ++ lines)) ∧
    length lines = 12%nat.
Proof.
  destruct (print_test_result_report test_name q ds expected g out)
    as (r & g' & _ & Hrun).
  by eexists _, g'.
Qed.

Ltac run_test l g H Hl :=
  match goal with
  | |- context [(Demo.print_test_result ?n ?q ?ds ?e ≫= _) (?g0, ?out0)] =>
      destruct (print_test_result_lines n q ds e g0 out0) as (l & g & H & Hl)
  end;
  erewrite mbind_run; [|exact H]; cbv beta.

(** The demo always ends well: for every scheme and runtime that keep their
    contracts and every state of the randomness, [main] never raises, prints
    92 texts, and the last two are the count 7/7 and the all-passed line. *)
Theorem demo_main_all_passed (g : Entropy) (out : list string) :
  ∃ lines g',
    Demo.main (g, out) = (Ok (), (g', out ++ lines)) ∧
    length lines = 92%nat ∧
    ["Tests passed: 7/7"; "✓ All tests passed!"] `suffix_of` lines.
Proof.
  unfold Demo.main. do 3 run_print. cbv zeta.
  run_test l1 g1 H1 Hl1. run_test l2 g2 H2 Hl2. run_test l3 g3 H3 Hl3.
  run_test l4 g4 H4 Hl4. run_test l5 g5 H5 Hl5. run_test l6 g6 H6 Hl6.
  run_test l7 g7 H7 Hl7.
  do 3 run_print.
  repeat match goal with
  | |- context [sum_bool ?l] =>
      progress change (sum_bool l) with 7
  | |- context [Z.of_nat (length ?l)] =>
      progress change (Z.of_nat (length l)) with 7
  end.
  change (pretty 7) with "7".
  run_print. rewrite bool_decide_eq_true_2 by done.
  rewrite print_run.
  exists ([str_repeat "=" 60;
           "Private Set-Membership Test Protocol - Demo";
           str_repeat "=" 60]
          ++ l1 ++ l2 ++ l3 ++ l4 ++ l5 ++ l6 ++ l7
          ++ [nl +:+ str_repeat "=" 60; "Summary"; str_repeat "=" 60]
          ++ ["Tests passed: 7/7"; "✓ All tests passed!"]), g7.
  split; [|split].
  - do 2 f_equal. rewrite <- !app_assoc. reflexivity.
  - rewrite !length_app, Hl1, Hl2, Hl3, Hl4, Hl5, Hl6, Hl7. reflexivity.
  - rewrite !app_assoc. eexists. reflexivity.
Qed.
Ltac run_protocol_step r g Hr H :=
  match goal with
  | |- context [(silently (run_protocol ?q ?ds ?k) ≫= _) (?g0, ?out0)] =>
      destruct (run_protocol_report q ds k g0) as (r & g & ? & Hr & H)
  end;
  erewrite mbind_run; [|apply silently_run; exact H]; cbv beta iota;
  cbn [polynomial_degree decrypted_result actual_membership].

(** The example usage at the end of the module prints the same 22 texts on
    every execution, up to the blinding factor [r] of the second test: each
    of the three tests ends with the "Correct" line, the member queries
    show the decrypted result 0 and the non-member query 30 shows
    [375000 * r]. *)
Theorem example_usage_output (g : Entropy) (out : list string) :
  ∃ r g',
    1 ≤ r ≤ 1000 ∧
    example_usage (g, out)
    = (Ok (),
       (g', out ++
         ["Private Set-Membership Test Protocol Demo";
          str_repeat "=" 50;
          nl +:+ "Test 1: Query is IN the set";
          "Server dataset: [5, 10, 15, 20, 25]";
          "Client query: 15";
          "Protocol result: Member";
          "Actual membership: Member";
          "Decrypted result: 0";
          "✓ Correct!";
          nl +:+ "Test 2: Query is NOT in the set";
          "Server dataset: [5, 10, 15, 20, 25]";
          "Client query: 30";
          "Protocol result: Not a member";
          "Actual membership: Not a member";
          "Decrypted result: " +:+ pretty (375000 * r) +:+
            " (blinded, non-zero)";
          "✓ Correct!";
          nl +:+ "Test 3: Larger set";
          "Server dataset size: 20";
          "Client query: 10";
          "Protocol result: Member";
          "Actual membership: Member";
          "✓ Correct!"])).
Proof.
  unfold example_usage. do 3 run_print. cbv zeta.
  run_protocol_step r1 g1 Hr1 H1. do 6 run_print.
  run_print.
  run_protocol_step r2 g2 Hr2 H2. do 6 run_print.
  run_print.
  run_protocol_step r3 g3 Hr3 H3. do 4 run_print.
  rewrite print_run.
  exists r2, g3. split; [done|].
  do 2 f_equal. rewrite <- !app_assoc. reflexivity.
Qed.
End printing_properties.

(** ** Skipped terms *)

Lemma for_each_ext {A St} (xs : list A) (body1 body2 : A → St → result St) st :
  (∀ x st', x ∈ xs → body1 x st' = body2 x st') →
  for_each xs body1 st = for_each xs body2 st.
Proof.
  revert st. induction xs as [|x xs IH]; intros st Hext; simpl; [done|].
  rewrite (Hext x st) by left.
  destruct (body2 x st) as [st'|e]; simpl; [|done].
  apply IH. intros y st'' Hy. apply Hext. by right.
Qed.

(** A term whose coefficient is zero is really skipped: the ciphertext at
    its position is not read, so putting any other ciphertext there leaves
    the returned ciphertext and the randomness used exactly as they were. *)
Theorem zero_coefficient_term_is_skipped {Entropy} {P : Paillier Entropy}
    (self : Server.t) (pk : PublicKey) (eps : list EncryptedNumber)
    (k : nat) (e' : EncryptedNumber) (g : Entropy) :
  (k < Server.n self)%nat →
  Server.coefficients self !! (Server.n self - S k)%nat = Some 0 →
  Server.evaluate_polynomial_homomorphic self pk (<[k := e']> eps) g
  = Server.evaluate_polynomial_homomorphic self pk eps g.
Proof.
  intros Hk Hzero.
  assert (Hloop : ∀ r,
    for_each (range 1 (Server.n self + 1))
      (λ j result,
         let coeff_index := (Server.n self - j)%nat in
         a_j ← getitem (Server.coefficients self) coeff_index;
         if decide (a_j ≠ 0) then
           power ← getitem (<[k := e']> eps) (j - 1);
           let encrypted_term := enc_mul power a_j in
           Ok (enc_add result encrypted_term)
         else Ok result)
      r
    = for_each (range 1 (Server.n self + 1))
      (λ j result,
         let coeff_index := (Server.n self - j)%nat in
         a_j ← getitem (Server.coefficients self) coeff_index;
         if decide (a_j ≠ 0) then
           power ← getitem eps (j - 1);
           let encrypted_term := enc_mul power a_j in
           Ok (enc_add result encrypted_term)
         else Ok result)
      r).
  { intros r0. apply for_each_ext. intros j r Hj. cbv zeta.
    unfold range in Hj. apply elem_of_seq in Hj.
    destruct (decide (j = S k)) as [->|Hne].
    - by rewrite (getitem_Some _ _ _ Hzero).
    - destruct (getitem (Server.coefficients self) (Server.n self - j))
        as [a_k|e]; simpl; [|done].
      case_decide; [|done].
      unfold getitem. by rewrite list_lookup_insert_ne by lia. }
  unfold Server.evaluate_polynomial_homomorphic.
  rewrite length_insert.
  case_decide as Hlen; [done|].
  unfold_m.
  destruct (getitem_last (Server.coefficients self)) as [a_0|e]; [|done].
  destruct (encrypt pk a_0 g) as [e0 g1]. cbv beta iota. by rewrite Hloop.
Qed.

(** ** The further properties on the reference instance *)

Section reference_runs_further.
Import Reference ReferenceLaws.

Lemma polynomial_factorisation_witness :
  ∃ self,
    Server.__init__ [1; 3; 3; 5] = Ok self ∧
    poly_eval (Server.coefficients self) 4
    = root_product (remove_dups [1; 3; 3; 5]) 4.
Proof.
  apply (polynomial_factorisation (RC := runtime_contract) [1; 3; 3; 5] 4).
Defined.

Lemma vieta_formulas_witness :
  ∃ self,
    Server.__init__ [1; 3; 3; 5] = Ok self ∧
    last (Server.coefficients self)
    = Some (root_product (remove_dups [1; 3; 3; 5]) 0) ∧
    ([1; 3; 3; 5] ≠ [] →
     Server.coefficients self !! 1%nat
     = Some (- sum_Z (remove_dups [1; 3; 3; 5]))).
Proof. apply (vieta_formulas (RC := runtime_contract) [1; 3; 3; 5]). Defined.

Lemma constant_polynomial_iff_empty_witness :
  ∃ self,
    Server.__init__ [1; 3] = Ok self ∧
    (Server.coefficients self = [1] ↔ [1; 3] = []) ∧
    (Server.n self = 0%nat ↔ [1; 3] = []).
Proof.
  apply (constant_polynomial_iff_empty (RC := runtime_contract) [1; 3]).
Defined.

Lemma encoder_incremental_witness :
  ∃ self',
    Server.__init__ [7; 1; 3; 5] = Ok self' ∧
    Server.n self' = S (Server.n server_135) ∧
    multiply_step (Server.coefficients server_135) 7
    = Ok (Server.coefficients self').
Proof.
  apply (encoder_incremental (RC := runtime_contract) [1; 3; 5] 7 server_135).
  - rewrite !not_elem_of_cons. repeat split; [lia..|apply not_elem_of_nil].
  - reflexivity.
Defined.

Lemma encrypt_query_powers_witness :
  ∃ eps g',
    Client.encrypt_query client_7 2 3 11 = (Ok eps, g') ∧
    length eps = Z.to_nat 3 ∧
    decrypt 7 <$> eps = (λ k, 2 ^ Z.of_nat k) <$> seq 1 (Z.to_nat 3).
Proof.
  apply (encrypt_query_powers (PC := paillier_contract)
           client_7 7 7 2 3 11).
  - reflexivity.
  - by exists 0, 7, (next 7).
Defined.

Lemma generate_keys_round_trip_witness :
  ∃ self' pk g',
    Client.generate_keys Client.__init__ 1024 11 = (Ok (self', pk), g') ∧
    Client.public_key self' = Some pk ∧
    ∀ m g1, Client.decrypt_result self' (encrypt pk m g1).1 = Ok m.
Proof.
  apply (generate_keys_round_trip (PC := paillier_contract)
           Client.__init__ 1024 11).
Defined.

Lemma encrypt_query_non_positive_witness :
  Client.encrypt_query client_7 2 (-3) 11 = (Ok [], 11).
Proof.
  apply (encrypt_query_non_positive (P := paillier) client_7 7 2 (-3) 11).
  - reflexivity.
  - lia.
Defined.

Lemma evaluation_is_linear_witness :
  ∃ a_0 low ct,
    reverse (Server.coefficients server_135) = a_0 :: low ∧
    Server.evaluate_polynomial_homomorphic server_135 7
      [(10, 0); (-4, 0); (6, 0)] 11
    = (Ok ct, (encrypt 7 a_0 11).2) ∧
    decrypt 7 ct = a_0 + dot low (decrypt 7 <$> [(10, 0); (-4, 0); (6, 0)]).
Proof.
  apply (evaluation_is_linear (PC := paillier_contract) (R := runtime)
           [1; 3; 5] server_135 7 7 [(10, 0); (-4, 0); (6, 0)] 11).
  - reflexivity.
  - by exists 0, 7, (next 7).
  - reflexivity.
Defined.

Lemma blinding_factor_one_hides_nothing_witness :
  ∃ ct' g',
    Server.blind_and_return server_135 (6, 0) 1 11 = (Ok ct', g') ∧
    decrypt 7 ct' = decrypt 7 (6, 0).
Proof.
  apply (blinding_factor_one_hides_nothing (PC := paillier_contract)
           (RC := runtime_contract) server_135 7 (6, 0) 11).
Defined.

Lemma blinded_result_reveals_sign_and_multiple_witness :
  ∃ verdict info g',
    run_protocol 4 [3; 3; 7] 1024 42 = (Ok (verdict, info), g') ∧
    let p := root_product (remove_dups [3; 3; 7]) 4 in
    Z.sgn (decrypted_result info) = Z.sgn p ∧
    (p | decrypted_result info) ∧
    Z.abs p ≤ Z.abs (decrypted_result info) ≤ 1000 * Z.abs p.
Proof.
  apply (blinded_result_reveals_sign_and_multiple (PC := paillier_contract)
           (RC := runtime_contract) 4 [3; 3; 7] 1024 42).
Defined.

Lemma empty_dataset_run_witness :
  ∃ info g',
    run_protocol 7 [] 1024 42 = (Ok (false, info), g') ∧
    polynomial_degree info = 0%nat ∧
    info_coefficients info = [1] ∧
    1 ≤ decrypted_result info ≤ 1000.
Proof.
  apply (empty_dataset_run (PC := paillier_contract)
           (RC := runtime_contract) 7 1024 42).
Defined.


Lemma demo_main_all_passed_witness :
  ∃ lines g',
    Demo.main (42, []) = (Ok (), (g', [] ++ lines)) ∧
    length lines = 92%nat ∧
    ["Tests passed: 7/7"; "✓ All tests passed!"] `suffix_of` lines.
Proof.
  apply (demo_main_all_passed (PC := paillier_contract)
           (RC := runtime_contract) 42 []).
Defined.

Lemma example_usage_output_witness :
  ∃ r g' out,
    1 ≤ r ≤ 1000 ∧
    example_usage (42, []) = (Ok (), (g', out)) ∧
    length out = 22%nat ∧
    out !! 14%nat
    = Some ("Decrypted result: " +:+ pretty (375000 * r) +:+
            " (blinded, non-zero)").
Proof.
  destruct (example_usage_output (PC := paillier_contract)
              (RC := runtime_contract) 42 []) as (r & g' & Hr & Hrun).
  eexists r, g', _. split; [exact Hr|]. split; [exact Hrun|].
  split; reflexivity.
Defined.
Lemma zero_coefficient_term_is_skipped_witness :
  Server.evaluate_polynomial_homomorphic
    {| Server.dataset := [1; -1]; Server.n := 2;
       Server.coefficients := [1; 0; -1] |}
    7 (<[0%nat := (99, 5)]> [(3, 0); (9, 0)]) 11
  = Server.evaluate_polynomial_homomorphic
      {| Server.dataset := [1; -1]; Server.n := 2;
         Server.coefficients := [1; 0; -1] |}
      7 [(3, 0); (9, 0)] 11.
Proof.
  apply (zero_coefficient_term_is_skipped (P := paillier)
           {| Server.dataset := [1; -1]; Server.n := 2;
              Server.coefficients := [1; 0; -1] |}
           7 [(3, 0); (9, 0)] 0 (99, 5) 11).
  - simpl. lia.
  - reflexivity.
Defined.
End reference_runs_further.
